(** * igir: collection status (DATStatus) and fixdat creation (FixdatCreator)

    A shallow embedding of [src/types/datStatus.ts] (class [DATStatus]) and
    of the module that defines the class [FixdatCreator], followed by the
    properties of the written specification that concern them.

    Conventions of the embedding:
    - a JS array is a [list]; [push] appends at the end;
    - a JS [Map] that is iterated ([values()]) is an insertion-ordered
      association list ([JsMap]); a [Map] or [Set] that is only probed
      ([get], [has]) is a stdpp [gmap] or [gset];
    - [undefined] in a typed position [T | undefined] is [None];
    - classes whose source files are not part of the verified scope
      ([Game], [ROM], [File], [WriteCandidate], [DAT], [Options]) are records
      of the observations the two modules make on them. *)

From Stdlib Require OrderedTypeEx.
From stdpp Require Import base option list strings gmap pretty sorting.

Local Open Scope string_scope.
Local Open Scope list_scope.

#[local] Set Warnings "-clear-no-such-hyp".

(** ** External classes, by their observations *)

Record File := { getFilePath : string }.

Record ROM := { romName : string; romSize : nat }.

Record Game := {
  gameName : string;
  getRoms : list ROM;
  getIsBios : bool;
  getIsDevice : bool;
  isRetail : bool;
  isUnlicensed : bool;
  isDebug : bool;
  isDemo : bool;
  isBeta : bool;
  isSample : bool;
  isPrototype : bool;
  isProgram : bool;
  isAftermarket : bool;
  isHomebrew : bool;
  isBad : bool;
}.

Record ROMWithFiles := {
  getRom : ROM;
  getInputFile : File;
  getOutputFile : File;
}.

Record WriteCandidate := {
  getGame : Game;
  getRomsWithFiles : list ROMWithFiles;
  isPatched : bool;
}.

Record Header := { headerName : string; headerDescription : string }.

Record DAT := { getHeader : Header; getGames : list Game }.

Definition getName (dat : DAT) : string := headerName (getHeader dat).

Record Options := {
  shouldFixdat : bool;
  getFixdatOutput : string;
  usingDats : bool;
  shouldWrite : bool;
  getOnlyBios : bool;
  getOnlyDevice : bool;
  getOnlyRetail : bool;
  getNoBios : bool;
  getNoDevice : bool;
}.

Global Instance File_eq_dec : EqDecision File.
Proof. solve_decision. Defined.
Global Instance ROM_eq_dec : EqDecision ROM.
Proof. solve_decision. Defined.
Global Instance Game_eq_dec : EqDecision Game.
Proof. solve_decision. Defined.
Global Instance ROMWithFiles_eq_dec : EqDecision ROMWithFiles.
Proof. solve_decision. Defined.
Global Instance WriteCandidate_eq_dec : EqDecision WriteCandidate.
Proof. solve_decision. Defined.

(** The [hashCode()] method of [Game] and of [ROM]: the content identity of
    an object. Their bodies live in files outside the verified scope, so the
    development is parametric in them. *)
Class HashCode (A : Type) := hashCode : A → string.

(** The string a JS object converts to ([String(x)]); [Array.prototype.sort]
    without a comparator orders by it. *)
Class JsToString (A : Type) := jsToString : A → string.

(** Modelled from the spec: [Game.equals] is missing from the sources at hand;
    "Equality is by a stable content identity (hash code) derived from its
    defining fields, not object identity". *)
Definition equals `{HashCode Game} (a b : Game) : bool :=
  bool_decide (hashCode a = hashCode b).

(** ** [ROMType], [GameStatus] *)

Inductive ROMTypeValue := GAME | BIOS | DEVICE | RETAIL | PATCHED.

Global Instance ROMTypeValue_eq_dec : EqDecision ROMTypeValue.
Proof. solve_decision. Defined.

Definition ROMType_text (t : ROMTypeValue) : string :=
  match t with
  | GAME => "games"
  | BIOS => "BIOSes"
  | DEVICE => "devices"
  | RETAIL => "retail releases"
  | PATCHED => "patched games"
  end.

Inductive GameStatusValue :=
  FOUND | INCOMPLETE | MISSING | DUPLICATE | UNUSED | DELETED.

Global Instance GameStatusValue_eq_dec : EqDecision GameStatusValue.
Proof. solve_decision. Defined.

Definition GameStatus (s : GameStatusValue) : nat :=
  match s with
  | FOUND => 1
  | INCOMPLETE => 2
  | MISSING => 3
  | DUPLICATE => 4
  | UNUSED => 5
  | DELETED => 6
  end.

Definition GameStatusInverted (s : GameStatusValue) : string :=
  match s with
  | FOUND => "FOUND"
  | INCOMPLETE => "INCOMPLETE"
  | MISSING => "MISSING"
  | DUPLICATE => "DUPLICATE"
  | UNUSED => "UNUSED"
  | DELETED => "DELETED"
  end.

(** ** Insertion-ordered maps *)

Module JsMap.
Abbreviation t K V := (list (K * V)) (only parsing).

Section Defs.
Context {K V : Type} `{EqDecision K}.

Definition empty : t K V := [].

Fixpoint get (m : t K V) (k : K) : option V :=
  match m with
  | [] => None
  | (k', v) :: m' => if decide (k' = k) then Some v else get m' k
  end.

Definition has (m : t K V) (k : K) : bool :=
  match get m k with Some _ => true | None => false end.

(** [set] on a key that is present keeps the key's position. *)
Fixpoint set (m : t K V) (k : K) (v : V) : t K V :=
  match m with
  | [] => [(k, v)]
  | (k', v') :: m' =>
      if decide (k' = k) then (k, v) :: m' else (k', v') :: set m' k v
  end.

Definition values (m : t K V) : list V := m.*2.

Definition keys (m : t K V) : list K := m.*1.
End Defs.
End JsMap.

(** ** Array helpers *)

(** Modelled from the spec: [ArrayPoly.reduceUnique] is missing from the
    sources at hand; it "deduplicates", keeping the first of equal elements.
    JS compares objects by identity; equality of the record stands for it. *)
Fixpoint reduceUnique {A : Type} `{EqDecision A} (l : list A) : list A :=
  match l with
  | [] => []
  | x :: l' => x :: filter (λ y, y ≠ x) (reduceUnique l')
  end.

(** [Array.prototype.sort(compareFn)]: a stable sort, here by insertion; an
    element stays in front of the later elements it does not exceed. *)
Fixpoint sortInsert {A : Type} (cmp : A → A → comparison) (x : A) (l : list A)
  : list A :=
  match l with
  | [] => [x]
  | y :: l' =>
      match cmp x y with
      | Gt => y :: sortInsert cmp x l'
      | _ => x :: y :: l'
      end
  end.

Definition sortWith {A : Type} (cmp : A → A → comparison) (l : list A) : list A :=
  foldr (sortInsert cmp) [] l.

(** [Array.prototype.sort()] without a comparator: by the string conversion. *)
Definition sortDefault {A : Type} `{JsToString A} (l : list A) : list A :=
  sortWith (λ a b, String.compare (jsToString a) (jsToString b)) l.

(** [Array.prototype.join]. *)
Fixpoint join (sep : string) (l : list string) : string :=
  match l with
  | [] => EmptyString
  | [x] => x
  | x :: l' => x +:+ sep +:+ join sep l'
  end.

(** [String(b)] for a boolean. *)
Definition String_of_bool (b : bool) : string := if b then "true" else "false".

(** ** [DATStatus] *)

Record DATStatus := {
  dat : DAT;
  allRomTypesToGames : JsMap.t ROMTypeValue (list Game);
  foundRomTypesToCandidates : JsMap.t ROMTypeValue (list (option WriteCandidate));
  incompleteRomTypesToCandidates : JsMap.t ROMTypeValue (list WriteCandidate);
}.

(** [DATStatus.append]: [push] on the array of a key that is present, a fresh
    one-element array otherwise. *)
Definition append {T : Type} (map : JsMap.t ROMTypeValue (list T))
    (romType : ROMTypeValue) (value : T) : JsMap.t ROMTypeValue (list T) :=
  if JsMap.has map romType then
    match JsMap.get map romType with
    | Some values => JsMap.set map romType (values ++ [value])
    | None => map
    end
  else JsMap.set map romType [value].

Definition pushValueIntoMap {T : Type} (map : JsMap.t ROMTypeValue (list T))
    (game : Game) (value : T) : JsMap.t ROMTypeValue (list T) :=
  let map := append map GAME value in
  let map := if getIsBios game then append map BIOS value else map in
  let map := if getIsDevice game then append map DEVICE value else map in
  let map := if isRetail game then append map RETAIL value else map in
  map.

(** The array stored under a key, empty when the key is absent
    ([map.get(type) ?? []]). *)
Definition getOrEmpty {T : Type} (map : JsMap.t ROMTypeValue (list T))
    (romType : ROMTypeValue) : list T :=
  default [] (JsMap.get map romType).

(** The ROM-type keys [pushValueIntoMap] files a game under. *)
Definition qualifies (game : Game) (romType : ROMTypeValue) : bool :=
  match romType with
  | GAME => true
  | BIOS => getIsBios game
  | DEVICE => getIsDevice game
  | RETAIL => isRetail game
  | PATCHED => false
  end.

Definition getAllowedTypes (options : Options) : list ROMTypeValue :=
  omap id [
    if negb (getOnlyBios options) && negb (getOnlyDevice options)
       && negb (getOnlyRetail options)
    then Some GAME else None;
    if getOnlyBios options || (negb (getNoBios options) && negb (getOnlyDevice options))
    then Some BIOS else None;
    if getOnlyDevice options || (negb (getOnlyBios options) && negb (getNoDevice options))
    then Some DEVICE else None;
    if getOnlyRetail options || (negb (getOnlyBios options) && negb (getOnlyDevice options))
    then Some RETAIL else None;
    Some PATCHED
  ].

(** A map of arrays of [T] seen as a map of arrays of [T | undefined]. *)
Definition definedValues {T : Type} (map : JsMap.t ROMTypeValue (list T))
  : JsMap.t ROMTypeValue (list (option T)) :=
  (λ kv : ROMTypeValue * list T, (kv.1, Some <$> kv.2)) <$> map.

(** [DATStatus.getValuesForAllowedTypes]. [flatMap] contributes one
    [undefined] for a key that is absent; the [filter] drops it together with
    the [undefined] entries of the arrays. *)
Definition getValuesForAllowedTypes {T : Type} `{EqDecision T} `{JsToString T}
    (options : Options) (romTypesToValues : JsMap.t ROMTypeValue (list (option T)))
  : list T :=
  sortDefault
    (reduceUnique
       (omap id
          (getAllowedTypes options ≫=
             (λ type, match JsMap.get romTypesToValues type with
                      | Some values => values
                      | None => [None]
                      end)))).

Definition buildCsvRow (datName gameName : string) (status : GameStatusValue)
    (filePaths : list string)
    (patched bios retail unlicensed debug demo beta sample prototype test
       aftermarket homebrew bad : bool) : list string :=
  [ datName;
    gameName;
    GameStatusInverted status;
    join "|" filePaths;
    String_of_bool patched;
    String_of_bool bios;
    String_of_bool retail;
    String_of_bool unlicensed;
    String_of_bool debug;
    String_of_bool demo;
    String_of_bool beta;
    String_of_bool sample;
    String_of_bool prototype;
    String_of_bool test;
    String_of_bool aftermarket;
    String_of_bool homebrew;
    String_of_bool bad ].

(** The [headers] option [toCsv] hands to the CSV writer. *)
Definition csvHeaders : list string :=
  [ "DAT Name"; "Game Name"; "Status"; "ROM Files"; "Patched"; "BIOS";
    "Retail Release"; "Unlicensed"; "Debug"; "Demo"; "Beta"; "Sample";
    "Prototype"; "Program"; "Aftermarket"; "Homebrew"; "Bad" ].

(** [DATStatus.filesToCsv], up to the CSV writer: the rows it is given.
    Every parameter after [filePaths] takes its default, [false]. *)
Definition filesToCsv (filePaths : list string) (status : GameStatusValue)
  : list (list string) :=
  (λ filePath,
     buildCsvRow EmptyString EmptyString status [filePath]
       false false false false false false false false false false false
       false false) <$> filePaths.

(** [DATStatus.getInputFiles]. *)
Definition getInputFiles (this : DATStatus) : list File :=
  getInputFile <$>
    (omap id
       (mjoin (JsMap.values (foundRomTypesToCandidates this)
               ++ JsMap.values (definedValues (incompleteRomTypesToCandidates this))))
     ≫= getRomsWithFiles).

(** [DATStatus.anyGamesFound]. *)
Definition anyGamesFound (this : DATStatus) (options : Options) : bool :=
  foldl
    (λ (result : bool) romType,
       let foundCandidates :=
         from_option length 0 (JsMap.get (foundRomTypesToCandidates this) romType) in
       result || bool_decide (0 < foundCandidates)%nat)
    false (getAllowedTypes options).

(** The JS number [(found / all) * 100] for two array lengths: [NaN] for
    0/0, [Infinity] for a positive length over 0, and otherwise the quotient,
    which is compared exactly (as a fraction of naturals). *)
Inductive Percentage :=
  | NaN
  | Infinity
  | Percent (found all : nat).

Definition percentage (found all : nat) : Percentage :=
  if bool_decide (all = 0) then
    if bool_decide (found = 0) then NaN else Infinity
  else Percent found all.

(** [percentage >= bound] and [percentage > bound]; every comparison with
    [NaN] is false. *)
Definition percentage_ge (percentage : Percentage) (bound : nat) : bool :=
  match percentage with
  | NaN => false
  | Infinity => true
  | Percent found all => bool_decide (bound * all ≤ found * 100)%nat
  end.

Definition percentage_gt (percentage : Percentage) (bound : nat) : bool :=
  match percentage with
  | NaN => false
  | Infinity => true
  | Percent found all => bool_decide (bound * all < found * 100)%nat
  end.

Section DATStatusMethods.
Context `{HashCode Game}.
Context `{JsToString Game} `{JsToString WriteCandidate}.

(** Outside the verified scope: [String.prototype.localeCompare],
    [Number.prototype.toLocaleString] and [chalk.rgb(r, g, b)]. *)
Variable localeCompare : string → string → Z.
Variable toLocaleString : nat → string.
Variable chalk_rgb : nat → nat → nat → string → string.

(** The [reduce] at the head of the constructor: candidates grouped by the
    hash code of their game, each group in the order of the candidates. *)
Definition indexCandidates (candidates : list WriteCandidate)
  : gmap string (list WriteCandidate) :=
  foldl
    (λ (map : gmap string (list WriteCandidate)) candidate,
       let key := hashCode (getGame candidate) in
       match map !! key with
       | Some group => <[key := group ++ [candidate]]> map
       | None => <[key := [candidate]]> map
       end)
    ∅ candidates.

(** The callback of [dat.getGames().forEach] in the constructor. *)
Definition constructor_forEachGame
    (indexedCandidates : gmap string (list WriteCandidate))
    (this : DATStatus) (game : Game) : DATStatus :=
  let all := pushValueIntoMap (allRomTypesToGames this) game game in
  let gameCandidates := indexedCandidates !! hashCode game in
  if bool_decide (gameCandidates ≠ None) || bool_decide (length (getRoms game) = 0)
  then
    let gameCandidate := gameCandidates ≫= head in
    match gameCandidate with
    | Some candidate =>
        if bool_decide (length (getRomsWithFiles candidate) ≠ length (getRoms game))
        then
          {| dat := dat this;
             allRomTypesToGames := all;
             foundRomTypesToCandidates := foundRomTypesToCandidates this;
             incompleteRomTypesToCandidates :=
               pushValueIntoMap (incompleteRomTypesToCandidates this) game candidate |}
        else
          {| dat := dat this;
             allRomTypesToGames := all;
             foundRomTypesToCandidates :=
               pushValueIntoMap (foundRomTypesToCandidates this) game gameCandidate;
             incompleteRomTypesToCandidates := incompleteRomTypesToCandidates this |}
    | None =>
        {| dat := dat this;
           allRomTypesToGames := all;
           foundRomTypesToCandidates :=
             pushValueIntoMap (foundRomTypesToCandidates this) game gameCandidate;
           incompleteRomTypesToCandidates := incompleteRomTypesToCandidates this |}
    end
  else
    {| dat := dat this;
       allRomTypesToGames := all;
       foundRomTypesToCandidates := foundRomTypesToCandidates this;
       incompleteRomTypesToCandidates := incompleteRomTypesToCandidates this |}.

(** The body of the loop over the patched candidates. *)
Definition constructor_forPatched (this : DATStatus) (candidate : WriteCandidate)
  : DATStatus :=
  let game := getGame candidate in
  {| dat := dat this;
     allRomTypesToGames := append (allRomTypesToGames this) PATCHED game;
     foundRomTypesToCandidates :=
       append (foundRomTypesToCandidates this) PATCHED (Some candidate);
     incompleteRomTypesToCandidates := incompleteRomTypesToCandidates this |}.

(** [new DATStatus(dat, candidates)]. *)
Definition DATStatus_constructor (dat : DAT) (candidates : list WriteCandidate)
  : DATStatus :=
  let this :=
    {| dat := dat;
       allRomTypesToGames := JsMap.empty;
       foundRomTypesToCandidates := JsMap.empty;
       incompleteRomTypesToCandidates := JsMap.empty |} in
  let indexedCandidates := indexCandidates candidates in
  let this := foldl (constructor_forEachGame indexedCandidates) this (getGames dat) in
  foldl constructor_forPatched this (filter (λ candidate, isPatched candidate) candidates).

Definition getDATName (this : DATStatus) : string := getName (dat this).

(** The color [toConsole] picks for
    [percentage = (found.length / all.length) * 100]. *)
Definition toConsole_color (found all : nat) : string → string :=
  let percentage := percentage found all in
  if percentage_ge percentage 100 then chalk_rgb 0 166 0
  else if percentage_ge percentage 75 then chalk_rgb 153 153 0
  else if percentage_ge percentage 50 then chalk_rgb 160 124 0
  else if percentage_ge percentage 25 then chalk_rgb 162 93 0
  else if percentage_gt percentage 0 then chalk_rgb 160 59 0
  else chalk_rgb 153 0 0.

(** The callback of [map] in [toConsole]: the text for one ROM type. *)
Definition toConsole_type (this : DATStatus) (options : Options)
    (type : ROMTypeValue) : string :=
  let found := getOrEmpty (foundRomTypesToCandidates this) type in
  let all := getOrEmpty (allRomTypesToGames this) type in
  if negb (usingDats options) then
    toLocaleString (length found) +:+ " " +:+ ROMType_text type
  else
    let color := toConsole_color (length found) (length all) in
    if bool_decide (type = PATCHED) then
      color (toLocaleString (length all)) +:+ " " +:+ ROMType_text type
    else
      color (toLocaleString (length found)) +:+ "/"
        +:+ toLocaleString (length all) +:+ " " +:+ ROMType_text type.

(** [DATStatus.toConsole]. *)
Definition toConsole (this : DATStatus) (options : Options) : string :=
  join ", "
    (filter (λ string_, (0 < String.length string_)%nat)
       (toConsole_type this options <$>
          filter
            (λ type,
               Is_true
                 match JsMap.get (allRomTypesToGames this) type with
                 | Some games => bool_decide (0 < length games)%nat
                 | None => false
                 end)
            (getAllowedTypes options)))
  +:+ " " +:+ (if shouldWrite options then "written" else "found").

(** The status [toCsv] gives a game, from the two [find] results. *)
Definition toCsv_status (incompleteCandidate foundCandidate : option WriteCandidate)
    (game : Game) : GameStatusValue :=
  let status := MISSING in
  let status := if incompleteCandidate is Some _ then INCOMPLETE else status in
  let status :=
    if bool_decide (foundCandidate ≠ None) || bool_decide (length (getRoms game) = 0)
    then FOUND else status in
  status.

(** The callback of [map] in [toCsv]: the row of one game. *)
Definition toCsv_row (this : DATStatus) (options : Options)
    (incompleteCandidates foundCandidates : list WriteCandidate) (game : Game)
  : list string :=
  let incompleteCandidate :=
    find (λ candidate, equals (getGame candidate) game) incompleteCandidates in
  let foundCandidate :=
    find (λ candidate, equals (getGame candidate) game) foundCandidates in
  let status := toCsv_status incompleteCandidate foundCandidate game in
  let filePaths :=
    reduceUnique
      (getFilePath <$>
         ((λ romWithFiles,
             if shouldWrite options then getOutputFile romWithFiles
             else getInputFile romWithFiles) <$>
            (from_option getRomsWithFiles [] incompleteCandidate
             ++ from_option getRomsWithFiles [] foundCandidate))) in
  buildCsvRow (getDATName this) (gameName game) status filePaths
    (from_option isPatched false foundCandidate)
    (getIsBios game) (isRetail game) (isUnlicensed game) (isDebug game)
    (isDemo game) (isBeta game) (isSample game) (isPrototype game)
    (isProgram game) (isAftermarket game) (isHomebrew game) (isBad game).

(** The rows [toCsv] hands to the CSV writer. *)
Definition toCsv_rows (this : DATStatus) (options : Options) : list (list string) :=
  let foundCandidates :=
    getValuesForAllowedTypes options (foundRomTypesToCandidates this) in
  let incompleteCandidates :=
    getValuesForAllowedTypes options
      (definedValues (incompleteRomTypesToCandidates this)) in
  toCsv_row this options incompleteCandidates foundCandidates <$>
    sortWith
      (λ a b, (localeCompare (gameName a) (gameName b) ?= 0)%Z)
      (reduceUnique
         (getValuesForAllowedTypes options (definedValues (allRomTypesToGames this)))).

(** [DATStatus.toCsv], up to the CSV writer ([writeToString], an external
    library): the header line and the rows. *)
Definition toCsv (this : DATStatus) (options : Options)
  : list string * list (list string) :=
  (csvHeaders, toCsv_rows this options).

End DATStatusMethods.

(** ** [FixdatCreator] *)

Module FixdatCreator.

Inductive ProgressBarSymbol := WRITING.

(** What [create] does to its progress bar. *)
Inductive ProgressEvent :=
  | LogTrace (message : string)
  | LogDebug (message : string)
  | LogInfo (message : string)
  | SetSymbol (symbol : ProgressBarSymbol)
  | ResetProgress (total : nat).

(** The part of the outside world [create] acts on: the directories and
    files of the file system, and the calls made on the progress bar, oldest
    first. *)
Record World := {
  directories : gset string;
  fileContents : gmap string string;
  progressBar : list ProgressEvent;
}.

(** A settled promise: resolved with a value, or rejected with an error. *)
Inductive Outcome (A : Type) :=
  | Resolved (value : A)
  | Rejected (error : string).
Global Arguments Resolved {A} value.
Global Arguments Rejected {A} error.

(** An awaited computation: a state transformer over the world that settles
    one way or the other. *)
Definition Async (A : Type) : Type := World → Outcome A * World.

Definition resolve {A : Type} (a : A) : Async A := λ w, (Resolved a, w).

Definition reject {A : Type} (error : string) : Async A := λ w, (Rejected error, w).

(** [await]: a rejection is thrown on, as nothing in [create] catches it. *)
Definition await {A B : Type} (m : Async A) (k : A → Async B) : Async B :=
  λ w, match m w with
       | (Resolved a, w') => k a w'
       | (Rejected error, w') => (Rejected error, w')
       end.

Global Instance Async_ret : MRet Async := @resolve.
Global Instance Async_bind : MBind Async := λ A B k m, await m k.

(** The calls on the progress bar are synchronous and do not throw. *)
Definition progress (event : ProgressEvent) : Async unit :=
  λ w, (Resolved tt, {| directories := directories w;
                        fileContents := fileContents w;
                        progressBar := progressBar w ++ [event] |}).

(** The calls of [create] on the file system that can fail. *)
Inductive FsCall :=
  | Mkdir (pathLike : string)
  | WriteFile (pathLike data : string).

(** A failure of such a call: the error it rejects with and, for a write
    that had begun, what it left at its path ([None]: the path is as it
    was). *)
Record FsError := { errorCode : string; leftBehind : option string }.

(** Modelled from the spec: [IgirHeader] is missing from the sources at hand;
    "a header carrying the literal name fixdat, a back-reference to the
    source catalog's identity/metadata". *)
Definition IgirHeader (name : string) (originalDat : DAT) (options : Options)
  : Header :=
  {| headerName := name; headerDescription := getName originalDat |}.

(** Modelled from the spec: [LogiqxDAT] is missing from the sources at hand;
    the derived catalog has the given header and "the filtered game list as
    its only content". *)
Definition LogiqxDAT (header : Header) (games : list Game) : DAT :=
  {| getHeader := header; getGames := games |}.

Section Create.
Context `{HashCode ROM}.

(** Outside the verified scope: whether the file system fails a call in a
    given world (a path below a regular file, a missing permission, a full
    disk; [None]: the call succeeds), [DAT.toXmlDat], [DAT.getFilename] and
    [path.join]. *)
Variable fsError : FsCall → World → option FsError.
Variable toXmlDat : DAT → string.
Variable getFilename : DAT → string.
Variable path_join : string → string → string.

(** [FsPoly.exists]: true for a directory and for a file; it never
    rejects. *)
Definition FsPoly_exists (pathLike : string) : Async bool :=
  λ w, (Resolved (bool_decide (pathLike ∈ directories w)
                  || bool_decide (is_Some (fileContents w !! pathLike))), w).

(** [FsPoly.mkdir(dir, { recursive: true })]; the ancestors of [dir] are not
    tracked. *)
Definition FsPoly_mkdir (pathLike : string) : Async unit :=
  λ w, match fsError (Mkdir pathLike) w with
       | Some failure => (Rejected (errorCode failure), w)
       | None =>
           (Resolved tt, {| directories := {[pathLike]} ∪ directories w;
                            fileContents := fileContents w;
                            progressBar := progressBar w |})
       end.

(** [FsPoly.writeFile]. *)
Definition FsPoly_writeFile (pathLike data : string) : Async unit :=
  λ w, match fsError (WriteFile pathLike data) w with
       | Some failure =>
           (Rejected (errorCode failure),
            {| directories := directories w;
               fileContents :=
                 match leftBehind failure with
                 | Some partial => <[pathLike := partial]> (fileContents w)
                 | None => fileContents w
                 end;
               progressBar := progressBar w |})
       | None =>
           (Resolved tt, {| directories := directories w;
                            fileContents := <[pathLike := data]> (fileContents w);
                            progressBar := progressBar w |})
       end.

(** The local constant [writtenRomHashCodes] of [create]. *)
Definition writtenRomHashCodes (candidates : list WriteCandidate) : gset string :=
  list_to_set
    (hashCode <$> (getRom <$> (candidates ≫= getRomsWithFiles))).

(** The local constant [gamesWithMissingRoms] of [create]. *)
Definition gamesWithMissingRoms (originalDat : DAT)
    (candidates : list WriteCandidate) : list Game :=
  filter
    (λ game,
       ¬ Forall (λ rom, hashCode rom ∈ writtenRomHashCodes candidates) (getRoms game))
    (getGames originalDat).

(** The local constant [fixdat] of [create]. *)
Definition fixdatOf (options : Options) (originalDat : DAT)
    (candidates : list WriteCandidate) : DAT :=
  let header := IgirHeader "fixdat" originalDat options in
  LogiqxDAT header (gamesWithMissingRoms originalDat candidates).

(** [FixdatCreator.create]. *)
Definition create (options : Options) (originalDat : DAT)
    (candidates : list WriteCandidate) : Async (option string) :=
  if negb (shouldFixdat options) then resolve None
  else
    progress (LogTrace (getName originalDat +:+ ": generating a fixdat")) ;;
    progress (SetSymbol WRITING) ;;
    progress (ResetProgress 1) ;;
    let gamesWithMissingRoms := gamesWithMissingRoms originalDat candidates in
    if bool_decide (length gamesWithMissingRoms = 0) then
      progress
        (LogDebug
           (getName originalDat +:+ ": not creating a fixdat, all games were found")) ;;
      resolve None
    else
      let fixdatDir := getFixdatOutput options in
      dirExists ← FsPoly_exists fixdatDir;
      (if negb dirExists then FsPoly_mkdir fixdatDir else resolve tt) ;;
      let fixdat := fixdatOf options originalDat candidates in
      let fixdatContents := toXmlDat fixdat in
      let fixdatPath := path_join fixdatDir (getFilename fixdat) in
      progress
        (LogInfo
           (getName originalDat +:+ ": writing fixdat to '" +:+ fixdatPath +:+ "'")) ;;
      FsPoly_writeFile fixdatPath fixdatContents ;;
      progress (LogTrace (getName originalDat +:+ ": done generating a fixdat")) ;;
      resolve (Some fixdatPath).

End Create.
End FixdatCreator.

(** ** Vocabulary of the statements *)

Section Vocabulary.
Context `{HashCode Game} `{HashCode ROM}.

(** The candidate that is authoritative for a game: the first one, in the
    order of the candidate list, whose game has the game's hash code. *)
Definition firstCandidate (candidates : list WriteCandidate) (game : Game)
  : option WriteCandidate :=
  head (filter (λ candidate, hashCode (getGame candidate) = hashCode game) candidates).

(** What the constructor files for a game in the incomplete partition. *)
Definition incompleteEntry (candidates : list WriteCandidate) (game : Game)
  : option WriteCandidate :=
  match firstCandidate candidates game with
  | Some candidate =>
      if decide (length (getRomsWithFiles candidate) ≠ length (getRoms game))
      then Some candidate else None
  | None => None
  end.

(** What the constructor files for a game in the found partition: a
    candidate, or [undefined] for a game without roms and without candidate. *)
Definition foundEntry (candidates : list WriteCandidate) (game : Game)
  : option (option WriteCandidate) :=
  match firstCandidate candidates game with
  | Some candidate =>
      if decide (length (getRomsWithFiles candidate) ≠ length (getRoms game))
      then None else Some (Some candidate)
  | None => if decide (length (getRoms game) = 0) then Some None else None
  end.

(** A game appears in a partition when a candidate filed there, under the
    given ROM type, is a candidate of that game. *)
Definition appearsInFound (this : DATStatus) (type : ROMTypeValue) (game : Game)
  : Prop :=
  ∃ candidate,
    Some candidate ∈ getOrEmpty (foundRomTypesToCandidates this) type
    ∧ equals (getGame candidate) game = true.

Definition appearsInIncomplete (this : DATStatus) (type : ROMTypeValue) (game : Game)
  : Prop :=
  ∃ candidate,
    candidate ∈ getOrEmpty (incompleteRomTypesToCandidates this) type
    ∧ equals (getGame candidate) game = true.

(** A declared rom of the game is resolved by no candidate. *)
Definition hasUnresolvedRom (candidates : list WriteCandidate) (game : Game) : Prop :=
  ∃ rom,
    rom ∈ getRoms game
    ∧ ∀ candidate romWithFiles,
        candidate ∈ candidates →
        romWithFiles ∈ getRomsWithFiles candidate →
        hashCode (getRom romWithFiles) ≠ hashCode rom.

(** *** The specification's wording, where it is compared with the code *)

(** The construction rule as the specification words it: incomplete when the
    first candidate resolves strictly fewer roms than the game declares. *)
Definition spec_constructionRule (dat : DAT) (candidates : list WriteCandidate)
  : Prop :=
  let this := DATStatus_constructor dat candidates in
  ∀ game type,
    game ∈ getGames dat →
    qualifies game type = true →
    indexCandidates candidates !! hashCode game ≠ None
    ∨ length (getRoms game) = 0 →
    match indexCandidates candidates !! hashCode game ≫= head with
    | Some candidate =>
        if decide (length (getRomsWithFiles candidate) < length (getRoms game))
        then candidate ∈ getOrEmpty (incompleteRomTypesToCandidates this) type
        else Some candidate ∈ getOrEmpty (foundRomTypesToCandidates this) type
    | None => None ∈ getOrEmpty (foundRomTypesToCandidates this) type
    end.

(** The invariant of the incomplete partition as the specification words it:
    a non-empty, proper part of the declared roms is resolved. *)
Definition spec_incompleteInvariant (dat : DAT) (candidates : list WriteCandidate)
  : Prop :=
  let this := DATStatus_constructor dat candidates in
  ∀ game type candidate,
    game ∈ getGames dat →
    indexCandidates candidates !! hashCode game ≫= head = Some candidate →
    candidate ∈ getOrEmpty (incompleteRomTypesToCandidates this) type →
    1 ≤ length (getRomsWithFiles candidate) < length (getRoms game).

(** The disjointness of the partitions as the specification words it: over
    all catalogs, candidate lists and ROM types, the patched one included. *)
Definition spec_partitionsDisjoint (dat : DAT) (candidates : list WriteCandidate)
  : Prop :=
  let this := DATStatus_constructor dat candidates in
  ∀ game typeFound typeIncomplete,
    ¬ (appearsInFound this typeFound game
       ∧ appearsInIncomplete this typeIncomplete game).

End Vocabulary.


Section SpecWording.
Context `{HashCode Game}.
Context `{JsToString Game} `{JsToString WriteCandidate}.
Variable localeCompare : string → string → Z.


(** The input files as the specification words them: deduplicated, no file
    path twice. *)
Definition spec_inputFilesDeduplicated (this : DATStatus) : Prop :=
  NoDup (getFilePath <$> getInputFiles this).

(** The implicit claim on games without roms as it is worded: with an empty
    candidate list, [anyGamesFound] is true whenever the catalog holds a game
    that declares no rom. *)
Definition spec_emptyGameAnyFound (dat : DAT) : Prop :=
  ∀ game options,
    game ∈ getGames dat →
    length (getRoms game) = 0 →
    anyGamesFound (DATStatus_constructor dat []) options = true.

End SpecWording.

(** ** Concrete inputs *)

Module Examples.

(** A content identity by name, and the string conversion of an object
    without a [toString] of its own. *)
Definition gameHashByName : HashCode Game := gameName.
Definition romHashByName : HashCode ROM := romName.
Definition objectToString {A : Type} : JsToString A := λ _, "[object Object]".

Definition localeCompare (a b : string) : Z :=
  match String.compare a b with Lt => (-1)%Z | Eq => 0%Z | Gt => 1%Z end.
Definition toLocaleString (n : nat) : string := pretty n.
Definition chalk_rgb (r g b : nat) (text : string) : string := text.
Definition toXmlDat (dat : DAT) : string :=
  "<datafile>" +:+ join "," (gameName <$> getGames dat) +:+ "</datafile>".
Definition getFilename (dat : DAT) : string := getName dat +:+ ".dat".
Definition path_join (dir file : string) : string := dir +:+ "/" +:+ file.

Definition mkGame (name : string) (roms : list ROM) (bios device retail : bool)
  : Game :=
  {| gameName := name; getRoms := roms; getIsBios := bios;
     getIsDevice := device; isRetail := retail; isUnlicensed := false;
     isDebug := false; isDemo := false; isBeta := false; isSample := false;
     isPrototype := false; isProgram := false; isAftermarket := false;
     isHomebrew := false; isBad := false |}.

Definition mkDat (name : string) (games : list Game) : DAT :=
  {| getHeader := {| headerName := name; headerDescription := name |};
     getGames := games |}.

Definition romA : ROM := {| romName := "a.rom"; romSize := 16 |}.
Definition romB : ROM := {| romName := "b.rom"; romSize := 32 |}.

Definition resolved (rom : ROM) (input : string) : ROMWithFiles :=
  {| getRom := rom;
     getInputFile := {| getFilePath := input |};
     getOutputFile := {| getFilePath := "out/" +:+ romName rom |} |}.

Definition plainOptions : Options :=
  {| shouldFixdat := true; getFixdatOutput := "fixdats"; usingDats := true;
     shouldWrite := false; getOnlyBios := false; getOnlyDevice := false;
     getOnlyRetail := false; getNoBios := false; getNoDevice := false |}.

Definition onlyBiosOptions : Options :=
  {| shouldFixdat := true; getFixdatOutput := "fixdats"; usingDats := true;
     shouldWrite := false; getOnlyBios := true; getOnlyDevice := false;
     getOnlyRetail := false; getNoBios := false; getNoDevice := false |}.

(** A game of one rom, one of two roms, one without roms, a retail game and
    a device. *)
Definition gameOne : Game := mkGame "One" [romA] false false false.
Definition gameTwo : Game := mkGame "Two" [romA; romB] false false false.
Definition gameEmpty : Game := mkGame "Empty" [] false false false.
Definition gameRetail : Game := mkGame "Retail" [romA] false false true.

(** Candidates: [gameOne] complete, [gameOne] with one rom too many,
    [gameOne] with no rom and patched, [gameTwo] half resolved, [gameRetail]
    complete. *)
Definition oneComplete : WriteCandidate :=
  {| getGame := gameOne; getRomsWithFiles := [resolved romA "in/a.rom"];
     isPatched := false |}.
Definition oneOverfull : WriteCandidate :=
  {| getGame := gameOne;
     getRomsWithFiles := [resolved romA "in/a.rom"; resolved romB "in/b.rom"];
     isPatched := false |}.
Definition onePatchedEmpty : WriteCandidate :=
  {| getGame := gameOne; getRomsWithFiles := []; isPatched := true |}.
Definition oneEmpty : WriteCandidate :=
  {| getGame := gameOne; getRomsWithFiles := []; isPatched := false |}.
Definition twoHalf : WriteCandidate :=
  {| getGame := gameTwo; getRomsWithFiles := [resolved romA "in/a.rom"];
     isPatched := false |}.
Definition retailComplete : WriteCandidate :=
  {| getGame := gameRetail; getRomsWithFiles := [resolved romA "in/a.rom"];
     isPatched := false |}.

Definition emptyWorld : FixdatCreator.World :=
  {| FixdatCreator.directories := ∅;
     FixdatCreator.fileContents := ∅;
     FixdatCreator.progressBar := [] |}.

(** A world in which the output directory of [plainOptions] is a regular
    file. *)
Definition fileInTheWayWorld : FixdatCreator.World :=
  {| FixdatCreator.directories := ∅;
     FixdatCreator.fileContents := {[ "fixdats" := "not a directory" ]};
     FixdatCreator.progressBar := [] |}.

(** A file system that never fails, and one that fails a write below
    [fixdats] with [ENOTDIR], leaving nothing, when [fixdats] is a regular
    file. *)
Definition noFsError (call : FixdatCreator.FsCall) (world : FixdatCreator.World)
  : option FixdatCreator.FsError := None.

Definition notADirectory (call : FixdatCreator.FsCall) (world : FixdatCreator.World)
  : option FixdatCreator.FsError :=
  match call with
  | FixdatCreator.WriteFile pathLike _ =>
      if bool_decide (is_Some (FixdatCreator.fileContents world !! "fixdats"))
         && String.prefix "fixdats/" pathLike
      then Some {| FixdatCreator.errorCode := "ENOTDIR";
                   FixdatCreator.leftBehind := None |}
      else None
  | FixdatCreator.Mkdir _ => None
  end.

(** [gameOne] with the device flag set. *)
Definition gameOneDevice : Game := mkGame "One" [romA] false true false.

End Examples.

(** * Properties *)

(** ** Insertion-ordered maps *)

Section JsMapFacts.
Context {K V : Type} `{EqDecision K}.
Implicit Types (m : list (K * V)) (k : K) (v : V).

Lemma JsMap_get_set m k k' v :
  JsMap.get (JsMap.set m k v) k' = if decide (k = k') then Some v else JsMap.get m k'.
Proof.
  induction m as [|[k0 v0] m IH]; simpl.
  - destruct (decide (k = k')); done.
  - destruct (decide (k0 = k)) as [->|Hne]; simpl.
    + destruct (decide (k = k')); done.
    + rewrite IH. destruct (decide (k0 = k')) as [->|]; [|done].
      by rewrite decide_False.
Qed.

Lemma JsMap_keys_set m k v :
  JsMap.keys (JsMap.set m k v)
  = if JsMap.has m k then JsMap.keys m else JsMap.keys m ++ [k].
Proof.
  unfold JsMap.has, JsMap.keys.
  induction m as [|[k0 v0] m IH]; csimpl; [done|].
  destruct (decide (k0 = k)) as [->|Hne]; csimpl; [done|].
  rewrite IH. by destruct (JsMap.get m k).
Qed.

Lemma JsMap_get_None_keys m k : JsMap.get m k = None ↔ k ∉ JsMap.keys m.
Proof.
  unfold JsMap.keys. induction m as [|[k0 v0] m IH]; csimpl.
  - split; [intros _; apply not_elem_of_nil | done].
  - rewrite not_elem_of_cons. destruct (decide (k0 = k)) as [->|Hne].
    + split; [done | by intros [? _]].
    + rewrite IH. split; [by intros ?; split | by intros [_ ?]].
Qed.

Lemma JsMap_NoDup_keys_set m k v :
  NoDup (JsMap.keys m) → NoDup (JsMap.keys (JsMap.set m k v)).
Proof.
  intros Hnd. rewrite JsMap_keys_set. unfold JsMap.has.
  destruct (JsMap.get m k) eqn:Hget; [done|].
  apply NoDup_app. split_and!; [done| |apply NoDup_singleton].
  intros x Hx ->%list_elem_of_singleton. by apply JsMap_get_None_keys in Hget.
Qed.

(** With distinct keys, the arrays of [values()] are those [get] reaches. *)
Lemma JsMap_elem_of_values m v :
  NoDup (JsMap.keys m) → v ∈ JsMap.values m ↔ ∃ k, JsMap.get m k = Some v.
Proof.
  unfold JsMap.keys, JsMap.values.
  induction m as [|[k0 v0] m IH]; csimpl; intros Hnd.
  - split; [by intros ?%elem_of_nil | by intros [? ?]].
  - apply NoDup_cons in Hnd as [Hk0 Hnd]. rewrite elem_of_cons, (IH Hnd). split.
    + intros [->|[k Hk]].
      * exists k0. by rewrite decide_True.
      * exists k. rewrite decide_False; [done|]. intros ->.
        apply (JsMap_get_None_keys m k) in Hk0. congruence.
    + intros [k Hk]. destruct (decide (k0 = k)); [left; congruence | right; eauto].
Qed.

End JsMapFacts.

(** ** [append] and [pushValueIntoMap] *)

Section AppendFacts.
Context {T : Type}.
Implicit Types (map : list (ROMTypeValue * list T)) (value : T).

Lemma getOrEmpty_append map romType value type :
  getOrEmpty (append map romType value) type
  = getOrEmpty map type ++ (if decide (romType = type) then [value] else []).
Proof.
  unfold append, getOrEmpty, JsMap.has.
  destruct (JsMap.get map romType) as [values|] eqn:Hget;
    rewrite JsMap_get_set;
    destruct (decide (romType = type)) as [<-|Hne]; simpl;
    rewrite ?Hget, ?app_nil_r; done.
Qed.

Lemma append_NoDup_keys map romType value :
  NoDup (JsMap.keys map) → NoDup (JsMap.keys (append map romType value)).
Proof.
  intros Hnd. unfold append, JsMap.has.
  destruct (JsMap.get map romType); by apply JsMap_NoDup_keys_set.
Qed.

Lemma getOrEmpty_pushValueIntoMap map game value type :
  getOrEmpty (pushValueIntoMap map game value) type
  = getOrEmpty map type ++ (if qualifies game type then [value] else []).
Proof.
  unfold pushValueIntoMap.
  destruct (getIsBios game) eqn:Hbios, (getIsDevice game) eqn:Hdevice,
    (isRetail game) eqn:Hretail;
    rewrite ?getOrEmpty_append;
    destruct type; simpl; rewrite ?Hbios, ?Hdevice, ?Hretail, ?app_nil_r; done.
Qed.

Lemma pushValueIntoMap_NoDup_keys map game value :
  NoDup (JsMap.keys map) → NoDup (JsMap.keys (pushValueIntoMap map game value)).
Proof.
  intros Hnd. unfold pushValueIntoMap.
  destruct (getIsBios game), (getIsDevice game), (isRetail game);
    repeat apply append_NoDup_keys; done.
Qed.

Lemma getOrEmpty_definedValues map type :
  getOrEmpty (definedValues map) type = Some <$> getOrEmpty map type.
Proof.
  unfold getOrEmpty, definedValues.
  induction map as [|[k values] map IH]; csimpl; [done|].
  destruct (decide (k = type)); done.
Qed.

Lemma definedValues_keys map : JsMap.keys (definedValues map) = JsMap.keys map.
Proof.
  unfold JsMap.keys, definedValues. rewrite <-list_fmap_compose.
  by apply list_fmap_ext.
Qed.

End AppendFacts.

(** ** The allow-list of ROM types *)

(** C9. For every setting of the five toggles, the allow-list holds [games]
    exactly when no only-filter is set, [BIOSes] exactly when [onlyBios] or
    (not [noBios] and not [onlyDevice]), [devices] exactly when [onlyDevice]
    or (not [onlyBios] and not [noDevice]), [retail releases] exactly when
    [onlyRetail] or (not [onlyBios] and not [onlyDevice]), and always
    [patched games]. *)
Theorem getAllowedTypes_membership (options : Options) :
  (GAME ∈ getAllowedTypes options
   ↔ getOnlyBios options = false ∧ getOnlyDevice options = false
     ∧ getOnlyRetail options = false)
  ∧ (BIOS ∈ getAllowedTypes options
     ↔ getOnlyBios options = true
       ∨ (getNoBios options = false ∧ getOnlyDevice options = false))
  ∧ (DEVICE ∈ getAllowedTypes options
     ↔ getOnlyDevice options = true
       ∨ (getOnlyBios options = false ∧ getNoDevice options = false))
  ∧ (RETAIL ∈ getAllowedTypes options
     ↔ getOnlyRetail options = true
       ∨ (getOnlyBios options = false ∧ getOnlyDevice options = false))
  ∧ PATCHED ∈ getAllowedTypes options.
Proof.
  destruct options as [? ? ? ? onlyBios onlyDevice onlyRetail noBios noDevice].
  unfold getAllowedTypes; simpl.
  destruct onlyBios, onlyDevice, onlyRetail, noBios, noDevice;
    apply (bool_decide_unpack _); vm_compute; exact I.
Qed.

(** ** The constructor *)

Section ConstructorFacts.
Context `{HashCode Game}.
Implicit Types (candidates : list WriteCandidate) (game : Game)
  (this : DATStatus) (type : ROMTypeValue).

(** A group of the index is the sub-list of the candidates of one hash code;
    no group is empty. *)
Lemma indexCandidates_lookup candidates (key : string) :
  indexCandidates candidates !! key
  = match filter (λ candidate, hashCode (getGame candidate) = key) candidates with
    | [] => None
    | group => Some group
    end.
Proof.
  induction candidates as [|candidate candidates IH] using rev_ind; [done|].
  unfold indexCandidates in *. rewrite foldl_app. simpl.
  set (indexed := foldl _ ∅ candidates) in *.
  rewrite filter_app, filter_cons, filter_nil.
  destruct (decide (hashCode (getGame candidate) = key)) as [Heq|Hne].
  - rewrite Heq. destruct (indexed !! key) as [group|] eqn:Hget;
      rewrite lookup_insert_eq; rewrite IH in Hget.
    + destruct (filter _ candidates); simplify_eq. done.
    + destruct (filter _ candidates); simplify_eq. done.
  - rewrite app_nil_r.
    destruct (indexed !! hashCode (getGame candidate));
      rewrite lookup_insert_ne by done; apply IH.
Qed.

Lemma indexCandidates_head candidates game :
  indexCandidates candidates !! hashCode game ≫= head
  = firstCandidate candidates game.
Proof.
  rewrite indexCandidates_lookup. unfold firstCandidate.
  by destruct (filter _ candidates).
Qed.

Lemma indexCandidates_None candidates game :
  indexCandidates candidates !! hashCode game = None
  ↔ firstCandidate candidates game = None.
Proof.
  rewrite indexCandidates_lookup. unfold firstCandidate.
  by destruct (filter _ candidates).
Qed.

Lemma firstCandidate_Some candidates game candidate :
  firstCandidate candidates game = Some candidate →
  candidate ∈ candidates ∧ hashCode (getGame candidate) = hashCode game.
Proof.
  unfold firstCandidate. intros Hhead.
  apply head_Some_elem_of in Hhead. by apply list_elem_of_filter in Hhead as [? ?].
Qed.

Lemma firstCandidate_None candidates game :
  firstCandidate candidates game = None
  ↔ ∀ candidate, candidate ∈ candidates →
      hashCode (getGame candidate) ≠ hashCode game.
Proof.
  unfold firstCandidate. rewrite head_None. split.
  - intros Hnil candidate Hin Heq.
    assert (candidate ∈ filter (λ c, hashCode (getGame c) = hashCode game) candidates)
      as Hfil by (by apply list_elem_of_filter).
    rewrite Hnil in Hfil. by apply elem_of_nil in Hfil.
  - intros Hall.
    destruct (filter _ candidates) as [|candidate group] eqn:Hfil; [done|].
    assert (candidate ∈ filter (λ c, hashCode (getGame c) = hashCode game) candidates)
      as [Heq Hin]%list_elem_of_filter by (rewrite Hfil; left).
    by destruct (Hall candidate Hin).
Qed.

(** One game of the catalog: what the [forEach] callback does to each of the
    three maps. *)
Lemma constructor_forEachGame_all candidates this game :
  allRomTypesToGames (constructor_forEachGame (indexCandidates candidates) this game)
  = pushValueIntoMap (allRomTypesToGames this) game game.
Proof.
  unfold constructor_forEachGame.
  destruct (_ || _); [|done].
  destruct (_ ≫= head); [|done]. by destruct (bool_decide _).
Qed.

Lemma constructor_forEachGame_incomplete candidates this game :
  incompleteRomTypesToCandidates
    (constructor_forEachGame (indexCandidates candidates) this game)
  = match incompleteEntry candidates game with
    | Some candidate =>
        pushValueIntoMap (incompleteRomTypesToCandidates this) game candidate
    | None => incompleteRomTypesToCandidates this
    end.
Proof.
  unfold constructor_forEachGame, incompleteEntry.
  rewrite indexCandidates_head.
  destruct (firstCandidate candidates game) as [candidate|] eqn:Hfirst.
  - assert (indexCandidates candidates !! hashCode game ≠ None) as Hsome.
    { rewrite indexCandidates_None. congruence. }
    rewrite (bool_decide_eq_true_2 _ Hsome). simpl.
    destruct (decide _) as [Hne|Heq].
    + by rewrite bool_decide_eq_true_2.
    + by rewrite bool_decide_eq_false_2.
  - by destruct (_ || _).
Qed.

Lemma constructor_forEachGame_found candidates this game :
  foundRomTypesToCandidates
    (constructor_forEachGame (indexCandidates candidates) this game)
  = match foundEntry candidates game with
    | Some entry => pushValueIntoMap (foundRomTypesToCandidates this) game entry
    | None => foundRomTypesToCandidates this
    end.
Proof.
  unfold constructor_forEachGame, foundEntry.
  rewrite indexCandidates_head.
  destruct (firstCandidate candidates game) as [candidate|] eqn:Hfirst.
  - assert (indexCandidates candidates !! hashCode game ≠ None) as Hsome.
    { rewrite indexCandidates_None. congruence. }
    rewrite (bool_decide_eq_true_2 _ Hsome). simpl.
    destruct (decide _) as [Hne|Heq].
    + by rewrite bool_decide_eq_true_2.
    + by rewrite bool_decide_eq_false_2.
  - apply indexCandidates_None in Hfirst.
    rewrite (bool_decide_eq_false_2 (_ ≠ None)) by (intros Hne; by apply Hne).
    simpl. destruct (decide _) as [Hzero|Hpos].
    + by rewrite bool_decide_eq_true_2.
    + by rewrite bool_decide_eq_false_2.
Qed.

(** The loop over the catalog, from any state. *)
Lemma forEachGame_fold_all candidates games this type :
  getOrEmpty
    (allRomTypesToGames
       (foldl (constructor_forEachGame (indexCandidates candidates)) this games))
    type
  = getOrEmpty (allRomTypesToGames this) type
    ++ filter (λ game, qualifies game type) games.
Proof.
  revert this. induction games as [|game games IH]; intros this; simpl.
  - by rewrite app_nil_r.
  - rewrite IH, constructor_forEachGame_all, getOrEmpty_pushValueIntoMap.
    rewrite filter_cons, <-(assoc_L (++)).
    by destruct (qualifies game type).
Qed.

Lemma forEachGame_fold_incomplete candidates games this type :
  getOrEmpty
    (incompleteRomTypesToCandidates
       (foldl (constructor_forEachGame (indexCandidates candidates)) this games))
    type
  = getOrEmpty (incompleteRomTypesToCandidates this) type
    ++ omap (incompleteEntry candidates) (filter (λ game, qualifies game type) games).
Proof.
  revert this. induction games as [|game games IH]; intros this; simpl.
  - by rewrite app_nil_r.
  - rewrite IH, constructor_forEachGame_incomplete, filter_cons.
    destruct (incompleteEntry candidates game) as [candidate|] eqn:Hentry.
    + rewrite getOrEmpty_pushValueIntoMap, <-(assoc_L (++)).
      destruct (qualifies game type); simpl; by rewrite ?Hentry.
    + destruct (qualifies game type); simpl; by rewrite ?Hentry.
Qed.

Lemma forEachGame_fold_found candidates games this type :
  getOrEmpty
    (foundRomTypesToCandidates
       (foldl (constructor_forEachGame (indexCandidates candidates)) this games))
    type
  = getOrEmpty (foundRomTypesToCandidates this) type
    ++ omap (foundEntry candidates) (filter (λ game, qualifies game type) games).
Proof.
  revert this. induction games as [|game games IH]; intros this; simpl.
  - by rewrite app_nil_r.
  - rewrite IH, constructor_forEachGame_found, filter_cons.
    destruct (foundEntry candidates game) as [entry|] eqn:Hentry.
    + rewrite getOrEmpty_pushValueIntoMap, <-(assoc_L (++)).
      destruct (qualifies game type); simpl; by rewrite ?Hentry.
    + destruct (qualifies game type); simpl; by rewrite ?Hentry.
Qed.

(** The loop over the patched candidates, from any state. *)
Lemma forPatched_fold_all patched this type :
  getOrEmpty (allRomTypesToGames (foldl constructor_forPatched this patched)) type
  = getOrEmpty (allRomTypesToGames this) type
    ++ (if decide (type = PATCHED) then getGame <$> patched else []).
Proof.
  revert this. induction patched as [|candidate patched IH]; intros this; simpl.
  - destruct (decide _); by rewrite app_nil_r.
  - rewrite IH. simpl. rewrite getOrEmpty_append, <-(assoc_L (++)).
    destruct type; simpl; done.
Qed.

Lemma forPatched_fold_found patched this type :
  getOrEmpty (foundRomTypesToCandidates (foldl constructor_forPatched this patched)) type
  = getOrEmpty (foundRomTypesToCandidates this) type
    ++ (if decide (type = PATCHED) then Some <$> patched else []).
Proof.
  revert this. induction patched as [|candidate patched IH]; intros this; simpl.
  - destruct (decide _); by rewrite app_nil_r.
  - rewrite IH. simpl. rewrite getOrEmpty_append, <-(assoc_L (++)).
    destruct type; simpl; done.
Qed.

Lemma forPatched_fold_incomplete patched this :
  incompleteRomTypesToCandidates (foldl constructor_forPatched this patched)
  = incompleteRomTypesToCandidates this.
Proof.
  revert this. induction patched as [|candidate patched IH]; intros this; simpl;
    [done|by rewrite IH].
Qed.

(** No game is filed under [patched games] by [pushValueIntoMap]. *)
Lemma filter_qualifies_PATCHED (games : list Game) :
  filter (λ game, qualifies game PATCHED) games = [].
Proof. induction games as [|game games IH]; [done|]. by rewrite filter_cons. Qed.

(** The three maps of a constructed status, key by key. *)
Lemma constructor_all (dat : DAT) candidates type :
  getOrEmpty (allRomTypesToGames (DATStatus_constructor dat candidates)) type
  = filter (λ game, qualifies game type) (getGames dat)
    ++ (if decide (type = PATCHED)
        then getGame <$> filter (λ candidate, isPatched candidate) candidates
        else []).
Proof.
  unfold DATStatus_constructor. by rewrite forPatched_fold_all, forEachGame_fold_all.
Qed.

Lemma constructor_found (dat : DAT) candidates type :
  getOrEmpty (foundRomTypesToCandidates (DATStatus_constructor dat candidates)) type
  = omap (foundEntry candidates) (filter (λ game, qualifies game type) (getGames dat))
    ++ (if decide (type = PATCHED)
        then Some <$> filter (λ candidate, isPatched candidate) candidates
        else []).
Proof.
  unfold DATStatus_constructor.
  by rewrite forPatched_fold_found, forEachGame_fold_found.
Qed.

Lemma constructor_incomplete (dat : DAT) candidates type :
  getOrEmpty (incompleteRomTypesToCandidates (DATStatus_constructor dat candidates)) type
  = omap (incompleteEntry candidates)
      (filter (λ game, qualifies game type) (getGames dat)).
Proof.
  unfold DATStatus_constructor.
  by rewrite forPatched_fold_incomplete, forEachGame_fold_incomplete.
Qed.

(** Membership in the two partitions of a constructed status. *)
Lemma elem_of_constructor_incomplete (dat : DAT) candidates type candidate :
  candidate ∈ getOrEmpty
    (incompleteRomTypesToCandidates (DATStatus_constructor dat candidates)) type
  ↔ ∃ game, game ∈ getGames dat ∧ qualifies game type = true
            ∧ incompleteEntry candidates game = Some candidate.
Proof.
  rewrite constructor_incomplete, list_elem_of_omap.
  setoid_rewrite list_elem_of_filter. setoid_rewrite Is_true_true. naive_solver.
Qed.

Lemma elem_of_constructor_found (dat : DAT) candidates type entry :
  entry ∈ getOrEmpty
    (foundRomTypesToCandidates (DATStatus_constructor dat candidates)) type
  ↔ (∃ game, game ∈ getGames dat ∧ qualifies game type = true
             ∧ foundEntry candidates game = Some entry)
    ∨ (type = PATCHED
       ∧ ∃ candidate, entry = Some candidate ∧ candidate ∈ candidates
                      ∧ isPatched candidate = true).
Proof.
  rewrite constructor_found, elem_of_app, list_elem_of_omap.
  setoid_rewrite list_elem_of_filter. setoid_rewrite Is_true_true.
  destruct (decide (type = PATCHED)) as [->|Hne].
  - rewrite list_elem_of_fmap. setoid_rewrite list_elem_of_filter.
    setoid_rewrite Is_true_true. naive_solver.
  - rewrite elem_of_nil. naive_solver.
Qed.

End ConstructorFacts.

(** ** Classification of the games by the constructor *)

Section ConstructorClaims.
Context `{HashCode Game}.
Implicit Types (candidates : list WriteCandidate) (game : Game)
  (type : ROMTypeValue).

(** C1 (amended). For every game of the catalog that has a candidate group
    or declares no rom: when its first candidate exists and resolves a number
    of roms different from the number the game declares, that candidate is
    filed in the incomplete partition under every ROM type the game
    qualifies for; otherwise the first candidate, or [undefined] when there
    is none, is filed in the found partition under every such ROM type. *)
Theorem constructor_files_each_game (dat : DAT) candidates game type :
  game ∈ getGames dat →
  qualifies game type = true →
  indexCandidates candidates !! hashCode game ≠ None
  ∨ length (getRoms game) = 0 →
  let this := DATStatus_constructor dat candidates in
  match indexCandidates candidates !! hashCode game ≫= head with
  | Some candidate =>
      if decide (length (getRomsWithFiles candidate) ≠ length (getRoms game))
      then candidate ∈ getOrEmpty (incompleteRomTypesToCandidates this) type
      else Some candidate ∈ getOrEmpty (foundRomTypesToCandidates this) type
  | None => None ∈ getOrEmpty (foundRomTypesToCandidates this) type
  end.
Proof.
  intros Hgame Htype Hgroup this. subst this.
  rewrite indexCandidates_head.
  destruct (firstCandidate candidates game) as [candidate|] eqn:Hfirst.
  - destruct (decide _) as [Hne|Heq].
    + apply elem_of_constructor_incomplete. exists game. split_and!; [done..|].
      unfold incompleteEntry. rewrite Hfirst. by rewrite decide_True.
    + apply elem_of_constructor_found. left. exists game. split_and!; [done..|].
      unfold foundEntry. rewrite Hfirst. by rewrite decide_False.
  - apply elem_of_constructor_found. left. exists game. split_and!; [done..|].
    unfold foundEntry. rewrite Hfirst.
    destruct Hgroup as [Hsome|Hzero].
    + by apply indexCandidates_None in Hfirst.
    + by rewrite decide_True.
Qed.

(** C5 (amended). Every candidate of the incomplete partition is the first
    candidate of a game of the catalog, filed under a ROM type that game
    qualifies for, and the number of roms it resolves differs from the number
    of roms the game declares. *)
Theorem incomplete_candidate_count_differs (dat : DAT) candidates type candidate :
  candidate ∈ getOrEmpty
    (incompleteRomTypesToCandidates (DATStatus_constructor dat candidates)) type →
  ∃ game,
    game ∈ getGames dat
    ∧ qualifies game type = true
    ∧ indexCandidates candidates !! hashCode game ≫= head = Some candidate
    ∧ length (getRomsWithFiles candidate) ≠ length (getRoms game).
Proof.
  intros (game & Hgame & Htype & Hentry)%elem_of_constructor_incomplete.
  exists game. rewrite indexCandidates_head. unfold incompleteEntry in Hentry.
  destruct (firstCandidate candidates game) as [first|]; [|done].
  destruct (decide _) as [Hne|]; [|done]. by simplify_eq.
Qed.

(** Where no first candidate resolves more roms than its game declares, the
    rule of the constructor is the rule the specification words. *)
Lemma spec_constructionRule_bounded (dat : DAT) candidates :
  (∀ game candidate,
     game ∈ getGames dat →
     firstCandidate candidates game = Some candidate →
     (length (getRomsWithFiles candidate) ≤ length (getRoms game))%nat) →
  spec_constructionRule dat candidates.
Proof.
  intros Hbound game type Hgame Htype Hgroup.
  rewrite indexCandidates_head.
  destruct (firstCandidate candidates game) as [candidate|] eqn:Hfirst.
  - specialize (Hbound game candidate Hgame Hfirst).
    destruct (decide (_ < _)) as [Hlt|Hge].
    + apply elem_of_constructor_incomplete. exists game. split_and!; [done..|].
      unfold incompleteEntry. rewrite Hfirst, decide_True; [done|lia].
    + apply elem_of_constructor_found. left. exists game. split_and!; [done..|].
      unfold foundEntry. rewrite Hfirst, decide_False; [done|lia].
  - apply elem_of_constructor_found. left. exists game. split_and!; [done..|].
    unfold foundEntry. rewrite Hfirst.
    destruct Hgroup as [Hsome|Hzero].
    + by apply indexCandidates_None in Hfirst.
    + by rewrite decide_True.
Qed.

(** Where every first candidate resolves at least one rom and no more roms
    than its game declares, the incomplete partition has the invariant the
    specification words. *)
Lemma spec_incompleteInvariant_bounded (dat : DAT) candidates :
  (∀ game candidate,
     game ∈ getGames dat →
     firstCandidate candidates game = Some candidate →
     (1 ≤ length (getRomsWithFiles candidate) ≤ length (getRoms game))%nat) →
  (∀ game1 game2,
     game1 ∈ getGames dat → game2 ∈ getGames dat →
     hashCode game1 = hashCode game2 →
     length (getRoms game1) = length (getRoms game2)) →
  spec_incompleteInvariant dat candidates.
Proof.
  intros Hbound Hhash game type candidate Hgame Hfirst Hin.
  rewrite indexCandidates_head in Hfirst.
  apply elem_of_constructor_incomplete in Hin as (game' & Hgame' & _ & Hentry).
  unfold incompleteEntry in Hentry.
  destruct (firstCandidate candidates game') as [first|] eqn:Hfirst'; [|done].
  destruct (decide _) as [Hne|]; [|done]. simplify_eq.
  pose proof (Hbound game candidate Hgame Hfirst) as [Hpos Hle].
  apply firstCandidate_Some in Hfirst as [_ Hhash1], Hfirst' as [_ Hhash2].
  assert (length (getRoms game') = length (getRoms game)) as Hsame
    by (apply Hhash; [done..|congruence]).
  lia.
Qed.

(** The first candidate of a game depends on the game's hash code only. *)
Lemma firstCandidate_hashCode candidates game1 game2 :
  hashCode game1 = hashCode game2 →
  firstCandidate candidates game1 = firstCandidate candidates game2.
Proof. unfold firstCandidate. by intros ->. Qed.

(** C4 (amended). When the games of the catalog that share a hash code
    declare the same number of roms, no game appears both in the found
    partition under one of the ROM types [games], [BIOSes], [devices],
    [retail releases] and in the incomplete partition. *)
Theorem partitions_disjoint_off_patched (dat : DAT) candidates :
  (∀ game1 game2,
     game1 ∈ getGames dat → game2 ∈ getGames dat →
     hashCode game1 = hashCode game2 →
     length (getRoms game1) = length (getRoms game2)) →
  let this := DATStatus_constructor dat candidates in
  ∀ game typeFound typeIncomplete,
    typeFound ≠ PATCHED →
    ¬ (appearsInFound this typeFound game
       ∧ appearsInIncomplete this typeIncomplete game).
Proof.
  intros Hhash this game typeFound typeIncomplete Hunpatched
    [(found & Hfound & Hfound_game) (incomplete & Hincomplete & Hincomplete_game)].
  subst this. unfold equals in *.
  apply bool_decide_eq_true in Hfound_game, Hincomplete_game.
  apply elem_of_constructor_found in Hfound
    as [(game1 & Hgame1 & _ & Hentry1)|[? _]]; [|done].
  apply elem_of_constructor_incomplete in Hincomplete
    as (game2 & Hgame2 & _ & Hentry2).
  unfold foundEntry in Hentry1. unfold incompleteEntry in Hentry2.
  destruct (firstCandidate candidates game1) as [first1|] eqn:Hfirst1;
    [|by destruct (decide _)].
  destruct (firstCandidate candidates game2) as [first2|] eqn:Hfirst2; [|done].
  destruct (decide (length (getRomsWithFiles first1) ≠ _)) as [|Heq1%dec_stable];
    [done|].
  destruct (decide (length (getRomsWithFiles first2) ≠ _)) as [Hne2|]; [|done].
  simplify_eq.
  apply firstCandidate_Some in Hfirst1 as Hhash1, Hfirst2 as Hhash2.
  destruct Hhash1 as [_ Hhash1], Hhash2 as [_ Hhash2].
  assert (hashCode game1 = hashCode game2) as Hsame by congruence.
  rewrite (firstCandidate_hashCode _ _ _ Hsame) in Hfirst1. simplify_eq.
  apply Hne2. rewrite Heq1. by apply Hhash.
Qed.

End ConstructorClaims.

(** ** Queries and console rendering *)

Lemma foldl_orb {A : Type} (f : A → bool) (l : list A) (result : bool) :
  foldl (λ result x, result || f x) result l = result || existsb f l.
Proof.
  revert result. induction l as [|x l IH]; intros result; simpl.
  - by rewrite orb_false_r.
  - by rewrite IH, orb_assoc.
Qed.

(** [anyGamesFound] holds exactly when some allowed ROM type has a non-empty
    array in the found partition. *)
Lemma anyGamesFound_true (this : DATStatus) (options : Options) :
  anyGamesFound this options = true
  ↔ ∃ type, type ∈ getAllowedTypes options
            ∧ 0 < length (getOrEmpty (foundRomTypesToCandidates this) type).
Proof.
  unfold anyGamesFound. rewrite foldl_orb. simpl.
  rewrite existsb_exists. setoid_rewrite <-list_elem_of_In.
  setoid_rewrite bool_decide_eq_true. unfold getOrEmpty.
  split; intros (type & Hin & Hpos); exists type; split; try done;
    by destruct (JsMap.get _ type).
Qed.

Lemma filter_None_Some {A : Type} (l : list A) :
  filter (λ entry : option A, entry = None) (Some <$> l) = [].
Proof.
  induction l as [|x l IH]; [done|]. csimpl. by rewrite filter_cons, decide_False.
Qed.

Lemma length_filter_None_omap {A B : Type} `{EqDecision B}
    (f : A → option (option B))
    (l : list A) :
  length (filter (λ entry : option B, entry = None) (omap f l))
  = length (filter (λ x, f x = Some None) l).
Proof.
  induction l as [|x l IH]; [done|].
  csimpl. rewrite (filter_cons (λ x, f x = Some None)).
  destruct (f x) as [[b|]|] eqn:Hfx.
  - by rewrite filter_cons, !decide_False.
  - rewrite filter_cons, !decide_True by done. simpl. by rewrite IH.
  - by rewrite decide_False.
Qed.

Lemma String_length_append (a b : string) :
  String.length (a +:+ b) = (String.length a + String.length b)%nat.
Proof. induction a as [|c a IH]; simpl; [done|]. by rewrite IH. Qed.

Lemma filter_fmap_all {A B : Type} (P : B → Prop) `{!∀ y, Decision (P y)}
    (f : A → B) (l : list A) :
  (∀ x, P (f x)) → filter P (f <$> l) = f <$> l.
Proof.
  intros Hall. induction l as [|x l IH]; [done|].
  csimpl. rewrite filter_cons, decide_True by done. by rewrite IH.
Qed.

Lemma toConsole_type_nonempty (toLocaleString : nat → string)
    (chalk_rgb : nat → nat → nat → string → string)
    (this : DATStatus) (options : Options) (type : ROMTypeValue) :
  (0 < String.length (toConsole_type toLocaleString chalk_rgb this options type))%nat.
Proof.
  unfold toConsole_type.
  destruct (usingDats options); simpl;
    [destruct (bool_decide (type = PATCHED))|];
    rewrite !String_length_append; destruct type; simpl; lia.
Qed.

(** The allow-list is its ROM types other than [patched games], followed by
    [patched games]. *)
Lemma getAllowedTypes_patched_last (options : Options) :
  getAllowedTypes options
  = filter (λ type, type ≠ PATCHED) (getAllowedTypes options) ++ [PATCHED].
Proof.
  destruct options as [? ? ? ? onlyBios onlyDevice onlyRetail noBios noDevice].
  unfold getAllowedTypes; simpl.
  by destruct onlyBios, onlyDevice, onlyRetail, noBios, noDevice.
Qed.

(** The test of [toConsole] on a ROM type: its array of games is there and
    not empty. *)
Lemma toConsole_has_games (this : DATStatus) (type : ROMTypeValue) :
  Is_true
    match JsMap.get (allRomTypesToGames this) type with
    | Some games => bool_decide (0 < length games)%nat
    | None => false
    end
  ↔ getOrEmpty (allRomTypesToGames this) type ≠ [].
Proof.
  unfold getOrEmpty.
  destruct (JsMap.get (allRomTypesToGames this) type) as [[|game games]|].
  - by rewrite bool_decide_eq_false_2 by (simpl; lia).
  - by rewrite bool_decide_eq_true_2 by (simpl; lia).
  - done.
Qed.

(** A full count is rendered in green. *)
Lemma toConsole_color_full (chalk_rgb : nat → nat → nat → string → string)
    (count : nat) :
  count ≠ 0 → toConsole_color chalk_rgb count count = chalk_rgb 0 166 0.
Proof.
  intros Hcount. unfold toConsole_color, percentage.
  rewrite bool_decide_eq_false_2 by done. simpl.
  by rewrite bool_decide_eq_true_2 by lia.
Qed.

(** No found entry out of no game is [NaN] percent, which is below every
    bound: the color is the last one. *)
Lemma toConsole_color_none_of_none
    (chalk_rgb : nat → nat → nat → string → string) :
  toConsole_color chalk_rgb 0 0 = chalk_rgb 153 0 0.
Proof. reflexivity. Qed.

Section PatchedAndEmptyGames.
Context `{HashCode Game}.
Variable toLocaleString : nat → string.
Variable chalk_rgb : nat → nat → nat → string → string.

(** C8. Every patched candidate is filed as found under [patched games] and
    its game is filed in the all-partition under that ROM type; the two
    arrays of that ROM type have the same length; and the console line ends
    its segments, when there is a patched candidate, with the segment of
    [patched games], which is the bare count (in green when catalogs are
    used) followed by the name of the ROM type, never [found/all]. *)
Theorem patched_found_equals_all (dat : DAT) (candidates : list WriteCandidate) :
  let this := DATStatus_constructor dat candidates in
  let found := getOrEmpty (foundRomTypesToCandidates this) PATCHED in
  let all := getOrEmpty (allRomTypesToGames this) PATCHED in
  (∀ candidate,
     candidate ∈ candidates → isPatched candidate = true →
     Some candidate ∈ found ∧ getGame candidate ∈ all)
  ∧ length found = length all
  ∧ ∀ options,
      toConsole toLocaleString chalk_rgb this options
      = join ", "
          ((toConsole_type toLocaleString chalk_rgb this options <$>
              filter (λ type, getOrEmpty (allRomTypesToGames this) type ≠ [])
                (filter (λ type, type ≠ PATCHED) (getAllowedTypes options)))
           ++ (if decide (all = []) then []
               else [ (if usingDats options
                       then chalk_rgb 0 166 0 (toLocaleString (length all))
                       else toLocaleString (length found))
                      +:+ " patched games" ]))
        +:+ " " +:+ (if shouldWrite options then "written" else "found").
Proof.
  intros this found all.
  assert (found = Some <$> filter (λ candidate, isPatched candidate) candidates)
    as Hfound.
  { subst found this. by rewrite constructor_found, filter_qualifies_PATCHED. }
  assert (all = getGame <$> filter (λ candidate, isPatched candidate) candidates)
    as Hall.
  { subst all this. by rewrite constructor_all, filter_qualifies_PATCHED. }
  assert (length found = length all) as Hlength
    by (by rewrite Hfound, Hall, !length_fmap).
  split_and!; [|done|].
  - intros candidate Hin Hpatched. rewrite Hfound, Hall. split.
    + apply list_elem_of_fmap_2, list_elem_of_filter. by rewrite Hpatched.
    + apply list_elem_of_fmap_2, list_elem_of_filter. by rewrite Hpatched.
  - intros options. unfold toConsole. f_equal. f_equal.
    rewrite filter_fmap_all by (intros type; apply toConsole_type_nonempty).
    rewrite (list_filter_iff _ _ _ (toConsole_has_games this)).
    rewrite (getAllowedTypes_patched_last options) at 1.
    rewrite filter_app, fmap_app. f_equal.
    rewrite filter_cons, filter_nil. fold all.
    destruct (decide (all = [])) as [Hnil|Hgames].
    + by rewrite decide_False by (by intros ?).
    + rewrite decide_True by done. csimpl. f_equal.
      unfold toConsole_type. fold found all.
      destruct (usingDats options); simpl; [|done].
      rewrite Hlength, toConsole_color_full; [done|].
      by destruct all.
Qed.

(** C10 (amended). A game of the catalog that declares no rom and has no
    candidate is filed as [undefined] in the found partition under every ROM
    type it qualifies for; the array of such a ROM type is therefore not
    empty, it holds as many [undefined] entries as the catalog has such
    games; and [anyGamesFound] returns true as soon as the allow-list holds a
    ROM type the game qualifies for. *)
Theorem empty_game_counts_as_found (dat : DAT) (candidates : list WriteCandidate)
    (game : Game) (type : ROMTypeValue) :
  game ∈ getGames dat →
  length (getRoms game) = 0 →
  (∀ candidate, candidate ∈ candidates →
     hashCode (getGame candidate) ≠ hashCode game) →
  qualifies game type = true →
  let this := DATStatus_constructor dat candidates in
  let found := getOrEmpty (foundRomTypesToCandidates this) type in
  None ∈ found
  ∧ 0 < length found
  ∧ length (filter (λ entry, entry = None) found)
    = length
        (filter
           (λ game, qualifies game type ∧ length (getRoms game) = 0
                    ∧ firstCandidate candidates game = None)
           (getGames dat))
  ∧ ∀ options,
      type ∈ getAllowedTypes options → anyGamesFound this options = true.
Proof.
  intros Hgame Hzero Hnone Htype this found.
  assert (None ∈ found) as Hin.
  { apply elem_of_constructor_found. left. exists game. split_and!; [done..|].
    unfold foundEntry. apply firstCandidate_None in Hnone. rewrite Hnone.
    by rewrite decide_True. }
  assert (0 < length found) as Hpos.
  { destruct found; [by apply elem_of_nil in Hin | simpl; lia]. }
  split_and!; [done..| |].
  - subst found this. rewrite constructor_found, filter_app, length_app.
    assert (filter (λ entry : option WriteCandidate, entry = None)
              (if decide (type = PATCHED)
               then Some <$> filter (λ candidate, isPatched candidate) candidates
               else []) = []) as ->.
    { destruct (decide _); [apply filter_None_Some|done]. }
    simpl. rewrite Nat.add_0_r, length_filter_None_omap, list_filter_filter.
    f_equal. apply list_filter_iff. intros g. unfold foundEntry.
    destruct (firstCandidate candidates g) as [c|].
    + destruct (decide (length (getRomsWithFiles c) ≠ _)); naive_solver.
    + destruct (decide (length (getRoms g) = 0)); naive_solver.
  - intros options Hallowed. apply anyGamesFound_true. by exists type.
Qed.

End PatchedAndEmptyGames.

(** ** The input files *)

Section InputFiles.
Context `{HashCode Game}.

(** The keys of the maps of a constructed status are distinct, as they are in
    a JS [Map]. *)
Lemma forEachGame_fold_NoDup_keys (candidates : list WriteCandidate)
    (games : list Game) (this : DATStatus) :
  NoDup (JsMap.keys (foundRomTypesToCandidates this)) →
  NoDup (JsMap.keys (incompleteRomTypesToCandidates this)) →
  let this' := foldl (constructor_forEachGame (indexCandidates candidates)) this games in
  NoDup (JsMap.keys (foundRomTypesToCandidates this'))
  ∧ NoDup (JsMap.keys (incompleteRomTypesToCandidates this')).
Proof.
  revert this. induction games as [|game games IH]; intros this Hfound Hincomplete;
    simpl; [done|].
  apply IH.
  - rewrite constructor_forEachGame_found.
    destruct (foundEntry candidates game); [by apply pushValueIntoMap_NoDup_keys|done].
  - rewrite constructor_forEachGame_incomplete.
    destruct (incompleteEntry candidates game);
      [by apply pushValueIntoMap_NoDup_keys|done].
Qed.

Lemma forPatched_fold_NoDup_keys (patched : list WriteCandidate) (this : DATStatus) :
  NoDup (JsMap.keys (foundRomTypesToCandidates this)) →
  NoDup (JsMap.keys (foundRomTypesToCandidates (foldl constructor_forPatched this patched))).
Proof.
  revert this. induction patched as [|candidate patched IH]; intros this Hfound;
    simpl; [done|].
  apply IH. simpl. by apply append_NoDup_keys.
Qed.

Lemma constructor_NoDup_keys (dat : DAT) (candidates : list WriteCandidate) :
  let this := DATStatus_constructor dat candidates in
  NoDup (JsMap.keys (foundRomTypesToCandidates this))
  ∧ NoDup (JsMap.keys (incompleteRomTypesToCandidates this)).
Proof.
  unfold DATStatus_constructor. simpl.
  edestruct (forEachGame_fold_NoDup_keys candidates (getGames dat)) as [Hfound Hinc];
    [| |split].
  3: { apply forPatched_fold_NoDup_keys, Hfound. }
  3: { rewrite forPatched_fold_incomplete. apply Hinc. }
  all: apply NoDup_nil_2.
Qed.

(** The arrays of [values()] of a map with distinct keys, entry by entry. *)
Lemma elem_of_join_values {T : Type} (map : list (ROMTypeValue * list T)) (x : T) :
  NoDup (JsMap.keys map) →
  x ∈ mjoin (JsMap.values map) ↔ ∃ type, x ∈ getOrEmpty map type.
Proof.
  intros Hnd. rewrite list_elem_of_join.
  setoid_rewrite (JsMap_elem_of_values map _ Hnd). unfold getOrEmpty. split.
  - intros (values & Hx & type & Hget). exists type. by rewrite Hget.
  - intros (type & Hx). destruct (JsMap.get map type) as [values|] eqn:Hget.
    + exists values. eauto.
    + by apply elem_of_nil in Hx.
Qed.

(** A key that a list without duplicates holds contributes its array once. *)
Lemma bind_type_Permutation {T : Type} (types : list ROMTypeValue)
    (key : ROMTypeValue) (values : list T) (f : ROMTypeValue → list T) :
  NoDup types → key ∈ types → f key = [] →
  types ≫= (λ type, if decide (key = type) then values else f type)
  ≡ₚ values ++ (types ≫= f).
Proof.
  induction types as [|type types IH]; intros Hnodup Hin Hkey.
  - by apply elem_of_nil in Hin.
  - apply NoDup_cons in Hnodup as [Hfresh Hnodup]. rewrite !bind_cons.
    destruct (decide (key = type)) as [<-|Hne].
    + rewrite Hkey. simpl. f_equiv.
      assert (Forall (λ type, (if decide (key = type) then values else f type) = f type)
                types) as Hsame.
      { apply Forall_forall. intros type Htype.
        rewrite decide_False; [done|]. by intros <-. }
      clear -Hsame. induction Hsame as [|type types Heq _ IH]; [done|].
      by rewrite !bind_cons, Heq, IH.
    + apply elem_of_cons in Hin as [?|Hin]; [done|].
      rewrite IH by done. by rewrite !(assoc_L (++)), (comm (++) (f type) values).
Qed.

(** The arrays of [values()], flattened, are the arrays of the ROM types,
    one after the other, up to the order of the keys. *)
Lemma join_values_bind {T : Type} (types : list ROMTypeValue)
    (map : list (ROMTypeValue * list T)) :
  NoDup types → (∀ type, type ∈ types) →
  NoDup (JsMap.keys map) →
  mjoin (JsMap.values map) ≡ₚ types ≫= getOrEmpty map.
Proof.
  intros Htypes Hevery. unfold JsMap.keys, JsMap.values.
  induction map as [|[key values] map IH]; intros Hnodup.
  - clear. induction types as [|type types IH]; [done|]. by rewrite bind_cons, <-IH.
  - rewrite !fmap_cons in *. apply NoDup_cons in Hnodup as [Hfresh Hnodup].
    simpl in Hfresh.
    change (mjoin ((key, values).2 :: map.*2)) with (values ++ mjoin map.*2).
    rewrite (IH Hnodup).
    rewrite <-(bind_type_Permutation types key values (getOrEmpty map))
      by (try done; apply (JsMap_get_None_keys map key) in Hfresh;
          unfold getOrEmpty; by rewrite Hfresh).
    apply reflexive_eq. apply list_bind_ext; [|done]. intros type.
    unfold getOrEmpty. simpl. by destruct (decide (key = type)).
Qed.

Lemma join_values_Permutation {T : Type} (map : list (ROMTypeValue * list T)) :
  NoDup (JsMap.keys map) →
  mjoin (JsMap.values map)
  ≡ₚ [GAME; BIOS; DEVICE; RETAIL; PATCHED] ≫= getOrEmpty map.
Proof.
  apply join_values_bind.
  - apply (bool_decide_unpack _). by vm_compute.
  - intros type. destruct type; apply (bool_decide_unpack _); by vm_compute.
Qed.

Lemma omap_id_bind {T : Type} (types : list ROMTypeValue)
    (f : ROMTypeValue → list (option T)) :
  omap id (types ≫= f) = types ≫= (λ type, omap id (f type)).
Proof.
  induction types as [|type types IH]; [done|].
  by rewrite !bind_cons, omap_app, IH.
Qed.

Lemma omap_id_Some {T : Type} (l : list T) : omap id (Some <$> l) = l.
Proof. induction l as [|x l IH]; [done|]. csimpl. by rewrite IH. Qed.

Lemma bind_app_Permutation {T : Type} (types : list ROMTypeValue)
    (f g : ROMTypeValue → list T) :
  (types ≫= f) ++ (types ≫= g) ≡ₚ types ≫= (λ type, f type ++ g type).
Proof.
  induction types as [|type types IH]; [done|].
  rewrite !bind_cons, <-IH. solve_Permutation.
Qed.

(** C6 (amended). The input files of a constructed status are, up to their
    order, the input files of the roms-with-files of every entry of the found
    and of the incomplete partition, ROM type by ROM type: a file is in the
    result once for every rom-with-files of every candidate under every ROM
    type the candidate is filed under, and no other file is in it. The result
    is not deduplicated. *)
Theorem getInputFiles_once_per_reference (dat : DAT)
    (candidates : list WriteCandidate) :
  let this := DATStatus_constructor dat candidates in
  getInputFiles this
  ≡ₚ getInputFile <$>
       (([GAME; BIOS; DEVICE; RETAIL; PATCHED] ≫=
           (λ type,
              omap id (getOrEmpty (foundRomTypesToCandidates this) type)
              ++ getOrEmpty (incompleteRomTypesToCandidates this) type))
        ≫= getRomsWithFiles)
  ∧ ∀ file,
      file ∈ getInputFiles this
      ↔ ∃ type candidate romWithFiles,
          (Some candidate ∈ getOrEmpty (foundRomTypesToCandidates this) type
           ∨ candidate ∈ getOrEmpty (incompleteRomTypesToCandidates this) type)
          ∧ romWithFiles ∈ getRomsWithFiles candidate
          ∧ file = getInputFile romWithFiles.
Proof.
  intros this. split.
  { destruct (constructor_NoDup_keys dat candidates) as [Hfound Hinc].
    fold this in Hfound, Hinc.
    rewrite <-(definedValues_keys (incompleteRomTypesToCandidates this)) in Hinc.
    unfold getInputFiles. do 2 f_equiv.
    rewrite join_app, omap_app.
    rewrite (join_values_Permutation _ Hfound), (join_values_Permutation _ Hinc).
    rewrite !omap_id_bind, bind_app_Permutation.
    apply reflexive_eq. apply list_bind_ext; [|done]. intros type.
    by rewrite getOrEmpty_definedValues, omap_id_Some. }
  intros file.
  destruct (constructor_NoDup_keys dat candidates) as [Hfound Hinc].
  fold this in Hfound, Hinc.
  unfold getInputFiles. rewrite list_elem_of_fmap.
  setoid_rewrite list_elem_of_bind. setoid_rewrite list_elem_of_omap.
  rewrite <-(definedValues_keys (incompleteRomTypesToCandidates this)) in Hinc.
  assert (∀ entry : option WriteCandidate,
            entry ∈ mjoin (JsMap.values (foundRomTypesToCandidates this)
                           ++ JsMap.values
                                (definedValues (incompleteRomTypesToCandidates this)))
            ↔ ∃ type,
                entry ∈ getOrEmpty (foundRomTypesToCandidates this) type
                ∨ entry ∈ Some <$> getOrEmpty (incompleteRomTypesToCandidates this) type)
    as Hentry.
  { intros entry. rewrite join_app, elem_of_app.
    rewrite (elem_of_join_values _ _ Hfound), (elem_of_join_values _ _ Hinc).
    setoid_rewrite getOrEmpty_definedValues. naive_solver. }
  setoid_rewrite Hentry. split.
  - intros (rwf & -> & candidate & Hrwf & entry & (type & Hin) & Hid).
    simpl in Hid. subst entry. exists type, candidate, rwf. split_and!; [|done..].
    destruct Hin as [Hin|Hin]; [by left|right].
    apply list_elem_of_fmap in Hin as (c & Hc & Hin). by simplify_eq.
  - intros (type & candidate & rwf & Hin & Hrwf & ->).
    exists rwf. split; [done|]. exists candidate. split; [done|].
    exists (Some candidate). split; [|done]. exists type.
    destruct Hin as [Hin|Hin]; [by left|right]. by apply list_elem_of_fmap_2.
Qed.

End InputFiles.

(** ** The CSV export *)

Lemma sortInsert_Permutation {A : Type} (cmp : A → A → comparison) (x : A)
    (l : list A) :
  sortInsert cmp x l ≡ₚ x :: l.
Proof.
  induction l as [|y l IH]; simpl; [done|].
  destruct (cmp x y); [done..|]. by rewrite IH, Permutation_swap.
Qed.

Lemma sortWith_Permutation {A : Type} (cmp : A → A → comparison) (l : list A) :
  sortWith cmp l ≡ₚ l.
Proof.
  unfold sortWith. induction l as [|x l IH]; simpl; [done|].
  by rewrite sortInsert_Permutation, IH.
Qed.

Lemma elem_of_reduceUnique {A : Type} `{EqDecision A} (l : list A) (x : A) :
  x ∈ reduceUnique l ↔ x ∈ l.
Proof.
  induction l as [|y l IH]; simpl; [done|].
  rewrite !elem_of_cons, list_elem_of_filter, IH.
  destruct (decide (x = y)); naive_solver.
Qed.

Lemma NoDup_reduceUnique {A : Type} `{EqDecision A} (l : list A) :
  NoDup (reduceUnique l).
Proof.
  induction l as [|y l IH]; simpl; [apply NoDup_nil_2|].
  apply NoDup_cons. split.
  - rewrite list_elem_of_filter. naive_solver.
  - by apply NoDup_filter.
Qed.

Lemma elem_of_getValuesForAllowedTypes {T : Type} `{EqDecision T} `{JsToString T}
    (options : Options) (map : list (ROMTypeValue * list (option T))) (x : T) :
  x ∈ getValuesForAllowedTypes options map
  ↔ ∃ type, type ∈ getAllowedTypes options ∧ Some x ∈ getOrEmpty map type.
Proof.
  unfold getValuesForAllowedTypes, sortDefault.
  rewrite sortWith_Permutation, elem_of_reduceUnique, list_elem_of_omap.
  setoid_rewrite list_elem_of_bind. unfold getOrEmpty. split.
  - intros (entry & (type & Hentry & Htype) & Hid). simpl in Hid. subst entry.
    exists type. split; [done|].
    destruct (JsMap.get map type); [done|].
    by apply list_elem_of_singleton in Hentry.
  - intros (type & Htype & Hx). exists (Some x). split; [|done].
    exists type. split; [|done].
    destruct (JsMap.get map type); [done|]. by apply elem_of_nil in Hx.
Qed.

Lemma find_is_Some {A : Type} (f : A → bool) (l : list A) :
  find f l ≠ None ↔ ∃ x, x ∈ l ∧ f x = true.
Proof.
  induction l as [|y l IH]; simpl.
  - split; [done|]. by intros (x & ?%elem_of_nil & _).
  - destruct (f y) eqn:Hfy.
    + split; [|done]. intros _. exists y. split; [left|done].
    + rewrite IH. setoid_rewrite elem_of_cons.
      split; intros (x & Hx & Hfx); exists x.
      * split; [by right|done].
      * destruct Hx as [->|Hx]; [congruence|done].
Qed.

Section CsvExport.
Context `{HashCode Game}.
Context `{JsToString Game} `{JsToString WriteCandidate}.
Variable localeCompare : string → string → Z.

(** The status of a game on its own: [FOUND] as soon as a found candidate
    matched or the game declares no rom, else [INCOMPLETE] when an incomplete
    candidate matched, else [MISSING]. *)
Lemma toCsv_status_cases (incompleteCandidate foundCandidate : option WriteCandidate)
    (game : Game) :
  toCsv_status incompleteCandidate foundCandidate game
  = if decide (foundCandidate ≠ None ∨ length (getRoms game) = 0) then FOUND
    else if decide (incompleteCandidate ≠ None) then INCOMPLETE
    else MISSING.
Proof.
  unfold toCsv_status. rewrite <-bool_decide_or.
  destruct (decide (foundCandidate ≠ None ∨ _)) as [Hfound|Hfound].
  - by rewrite bool_decide_eq_true_2.
  - rewrite bool_decide_eq_false_2 by done.
    destruct incompleteCandidate; destruct (decide _) as [Hinc|Hinc]; try done.
    exfalso. by apply Hinc.
Qed.


End CsvExport.

Section CsvColumns.
Context `{HashCode Game}.
Context `{JsToString Game} `{JsToString WriteCandidate}.
Variable localeCompare : string → string → Z.


End CsvColumns.

(** ** The fixdat *)

Section Fixdat.
Context `{HashCode ROM}.
Variable fsError : FixdatCreator.FsCall → FixdatCreator.World → option FixdatCreator.FsError.
Variable toXmlDat : DAT → string.
Variable getFilename : DAT → string.
Variable path_join : string → string → string.

Import FixdatCreator.

Lemma elem_of_writtenRomHashCodes (candidates : list WriteCandidate) (rom : ROM) :
  hashCode rom ∈ writtenRomHashCodes candidates
  ↔ ∃ candidate romWithFiles,
      candidate ∈ candidates
      ∧ romWithFiles ∈ getRomsWithFiles candidate
      ∧ hashCode (getRom romWithFiles) = hashCode rom.
Proof.
  unfold writtenRomHashCodes. rewrite elem_of_list_to_set, list_elem_of_fmap.
  setoid_rewrite list_elem_of_fmap. setoid_rewrite list_elem_of_bind. split.
  - intros (written & Hhash & rwf & -> & candidate & Hrwf & Hcandidate). eauto.
  - intros (candidate & rwf & Hcandidate & Hrwf & Hhash). eauto 10.
Qed.

Lemma elem_of_gamesWithMissingRoms (originalDat : DAT)
    (candidates : list WriteCandidate) (game : Game) :
  game ∈ gamesWithMissingRoms originalDat candidates
  ↔ game ∈ getGames originalDat ∧ hasUnresolvedRom candidates game.
Proof.
  unfold gamesWithMissingRoms, hasUnresolvedRom. rewrite list_elem_of_filter.
  split.
  - intros [Hmissing Hgame]. split; [done|].
    apply not_Forall_Exists in Hmissing; [|intros; apply _].
    apply Exists_exists in Hmissing as (rom & Hrom & Hunwritten).
    exists rom. split; [done|]. intros candidate rwf Hcandidate Hrwf Hhash.
    apply Hunwritten, elem_of_writtenRomHashCodes. eauto.
  - intros [Hgame (rom & Hrom & Hunwritten)]. split; [|done].
    intros Hall. rewrite Forall_forall in Hall.
    apply Hall, elem_of_writtenRomHashCodes in Hrom
      as (candidate & rwf & Hcandidate & Hrwf & Hhash).
    by eapply Hunwritten.
Qed.

(** C2. [create] resolves with [undefined] exactly when fixdats are disabled
    or no game of the catalog has an unresolved rom, and it leaves the world
    alone when they are disabled. Otherwise it resolves with the path of the
    file it wrote, which holds the serialised derived catalog, unless the
    creation of the output directory or the write fails, in which case it
    rejects with that error; it does resolve when the file system does not
    fail. The games of the derived catalog are exactly the games of the
    catalog with a declared rom whose hash code is that of no rom of any
    candidate; a game whose roms are all resolved is not among them. *)
Theorem create_fixdat (options : Options) (originalDat : DAT)
    (candidates : list WriteCandidate) (world : World) :
  let result :=
    create fsError toXmlDat getFilename path_join options originalDat candidates world in
  let fixdat := fixdatOf options originalDat candidates in
  let fixdatPath := path_join (getFixdatOutput options) (getFilename fixdat) in
  (result.1 = Resolved None
   ↔ shouldFixdat options = false
     ∨ ∀ game, game ∈ getGames originalDat → ¬ hasUnresolvedRom candidates game)
  ∧ (shouldFixdat options = false → result = (Resolved None, world))
  ∧ (∀ returned,
       result.1 = Resolved (Some returned) →
       returned = fixdatPath
       ∧ fileContents result.2 !! fixdatPath = Some (toXmlDat fixdat))
  ∧ (∀ error,
       result.1 = Rejected error →
       ∃ call world' failure,
         fsError call world' = Some failure
         ∧ errorCode failure = error
         ∧ (call = Mkdir (getFixdatOutput options)
            ∨ call = WriteFile fixdatPath (toXmlDat fixdat)))
  ∧ ((∀ call world', fsError call world' = None) →
     result.1 = Resolved None ∨ result.1 = Resolved (Some fixdatPath))
  ∧ (∀ game,
       game ∈ getGames fixdat
       ↔ game ∈ getGames originalDat ∧ hasUnresolvedRom candidates game)
  ∧ (∀ game,
       (∀ rom, rom ∈ getRoms game →
          ∃ candidate romWithFiles,
            candidate ∈ candidates
            ∧ romWithFiles ∈ getRomsWithFiles candidate
            ∧ hashCode (getRom romWithFiles) = hashCode rom) →
       game ∉ getGames fixdat).
Proof.
  intros result fixdat fixdatPath.
  assert (gamesWithMissingRoms originalDat candidates = []
          ↔ ∀ game, game ∈ getGames originalDat → ¬ hasUnresolvedRom candidates game)
    as Hempty.
  { split.
    - intros Hnil game Hgame Hunresolved.
      assert (game ∈ gamesWithMissingRoms originalDat candidates) as Hin
        by (by apply elem_of_gamesWithMissingRoms).
      rewrite Hnil in Hin. by apply elem_of_nil in Hin.
    - intros Hall.
      destruct (gamesWithMissingRoms originalDat candidates) as [|game games] eqn:Hgames;
        [done|].
      assert (game ∈ gamesWithMissingRoms originalDat candidates) as Hin
        by (rewrite Hgames; left).
      apply elem_of_gamesWithMissingRoms in Hin as [Hgame Hunresolved].
      by destruct (Hall game Hgame). }
  assert (∀ game,
            game ∈ getGames fixdat
            ↔ game ∈ getGames originalDat ∧ hasUnresolvedRom candidates game)
    as Hgames by (intros game; apply elem_of_gamesWithMissingRoms).
  assert (∀ game,
            (∀ rom, rom ∈ getRoms game →
               ∃ candidate romWithFiles,
                 candidate ∈ candidates
                 ∧ romWithFiles ∈ getRomsWithFiles candidate
                 ∧ hashCode (getRom romWithFiles) = hashCode rom) →
            game ∉ getGames fixdat) as Hresolved.
  { intros game Hall [_ (rom & Hrom & Hunresolved)]%Hgames.
    destruct (Hall rom Hrom) as (candidate & rwf & ? & ? & ?).
    by eapply Hunresolved. }
  subst result. unfold create.
  destruct (shouldFixdat options) eqn:Hfixdat; simpl.
  2: { split_and!; try done; [split; [by left|done]|by left]. }
  unfold mbind, Async_bind, await, progress, FsPoly_exists, FsPoly_mkdir,
    FsPoly_writeFile; simpl.
  destruct (decide (length (gamesWithMissingRoms originalDat candidates) = 0))
    as [Hzero|Hpos].
  { rewrite bool_decide_eq_true_2 by done. simpl.
    apply length_zero_iff_nil in Hzero.
    split_and!; try done; [|by left].
    split; [intros _; right; by apply Hempty|done]. }
  rewrite bool_decide_eq_false_2 by done.
  assert (¬ ∀ game, game ∈ getGames originalDat → ¬ hasUnresolvedRom candidates game)
    as Hsome.
  { intros Hnone%Hempty. apply Hpos. by rewrite Hnone. }
  destruct (_ || _); simpl.
  - destruct (fsError (WriteFile _ _) _) as [failure|] eqn:Hwrite; simpl.
    + split_and!; try done.
      * split; [done|]. by intros [?|?].
      * intros error [= <-]. eauto 10.
      * intros Hnofail. by rewrite Hnofail in Hwrite.
    + split_and!; try done.
      * split; [done|]. by intros [?|?].
      * intros returned [= <-]. split; [done|]. by rewrite lookup_insert_eq.
      * intros _. by right.
  - destruct (fsError (Mkdir _) _) as [failure|] eqn:Hmkdir; simpl.
    + split_and!; try done.
      * split; [done|]. by intros [?|?].
      * intros error [= <-]. eauto 10.
      * intros Hnofail. by rewrite Hnofail in Hmkdir.
    + destruct (fsError (WriteFile _ _) _) as [failure|] eqn:Hwrite; simpl.
      * split_and!; try done.
        -- split; [done|]. by intros [?|?].
        -- intros error [= <-]. eauto 10.
        -- intros Hnofail. by rewrite Hnofail in Hwrite.
      * split_and!; try done.
        -- split; [done|]. by intros [?|?].
        -- intros returned [= <-]. split; [done|]. by rewrite lookup_insert_eq.
        -- intros _. by right.
Qed.

End Fixdat.

(** * The statements at concrete inputs *)

Section Concrete.
Import Examples.
Local Existing Instance gameHashByName.
Local Existing Instance romHashByName.
Local Existing Instance objectToString.

(** C1, as worded, fails: a candidate that resolves two roms for a game that
    declares one is filed as incomplete, not as found. *)
Lemma spec_constructionRule_fails :
  ¬ spec_constructionRule (mkDat "T" [gameOne]) [oneOverfull].
Proof.
  intros Hspec.
  assert (indexCandidates [oneOverfull] !! hashCode gameOne ≠ None) as Hgroup
    by (by vm_compute).
  pose proof (Hspec gameOne GAME (list_elem_of_here _ _) eq_refl (or_introl Hgroup))
    as Hfound.
  vm_compute in Hfound. by apply elem_of_nil in Hfound.
Qed.

Lemma constructor_files_each_game_witness :
  oneOverfull
  ∈ getOrEmpty
      (incompleteRomTypesToCandidates
         (DATStatus_constructor (mkDat "T" [gameOne]) [oneOverfull]))
      GAME.
Proof.
  assert (indexCandidates [oneOverfull] !! hashCode gameOne ≠ None) as Hgroup
    by (by vm_compute).
  exact (constructor_files_each_game (mkDat "T" [gameOne]) [oneOverfull] gameOne GAME
           (list_elem_of_here _ _) eq_refl (or_introl Hgroup)).
Defined.

(** C4, as worded, fails: a patched candidate that resolves no rom of a game
    of one rom is filed as incomplete under [games] and as found under
    [patched games]. *)
Lemma spec_partitionsDisjoint_fails :
  ¬ spec_partitionsDisjoint (mkDat "T" [gameOne]) [onePatchedEmpty].
Proof.
  intros Hspec. apply (Hspec gameOne PATCHED GAME).
  split; exists onePatchedEmpty; (split; [|reflexivity]);
    apply (bool_decide_unpack _); vm_compute; exact I.
Qed.

Lemma partitions_disjoint_off_patched_witness :
  ¬ (appearsInFound
       (DATStatus_constructor (mkDat "T" [gameOne; gameTwo]) [oneComplete; twoHalf])
       GAME gameTwo
     ∧ appearsInIncomplete
         (DATStatus_constructor (mkDat "T" [gameOne; gameTwo]) [oneComplete; twoHalf])
         GAME gameTwo).
Proof.
  assert (∀ game1 game2,
            game1 ∈ getGames (mkDat "T" [gameOne; gameTwo]) →
            game2 ∈ getGames (mkDat "T" [gameOne; gameTwo]) →
            hashCode game1 = hashCode game2 →
            length (getRoms game1) = length (getRoms game2)) as Hhash.
  { simpl. intros game1 game2 Hgame1 Hgame2.
    rewrite !elem_of_cons, elem_of_nil in Hgame1, Hgame2.
    destruct Hgame1 as [->|[->|[]]], Hgame2 as [->|[->|[]]]; vm_compute; congruence. }
  assert (GAME ≠ PATCHED) as Hunpatched by discriminate.
  exact (partitions_disjoint_off_patched (mkDat "T" [gameOne; gameTwo])
           [oneComplete; twoHalf] Hhash gameTwo GAME GAME Hunpatched).
Defined.

(** C5, as worded, fails: a first candidate that resolves no rom at all is
    filed as incomplete. *)
Lemma spec_incompleteInvariant_fails :
  ¬ spec_incompleteInvariant (mkDat "T" [gameOne]) [oneEmpty].
Proof.
  intros Hspec.
  assert (oneEmpty
          ∈ getOrEmpty
              (incompleteRomTypesToCandidates
                 (DATStatus_constructor (mkDat "T" [gameOne]) [oneEmpty])) GAME)
    as Hin by (apply (bool_decide_unpack _); vm_compute; exact I).
  destruct (Hspec gameOne GAME oneEmpty (list_elem_of_here _ _) eq_refl Hin)
    as [Hpos _].
  simpl in Hpos. lia.
Qed.

Lemma incomplete_candidate_count_differs_witness :
  ∃ game,
    game ∈ getGames (mkDat "T" [gameOne; gameTwo])
    ∧ qualifies game GAME = true
    ∧ indexCandidates [oneComplete; twoHalf] !! hashCode game ≫= head = Some twoHalf
    ∧ length (getRomsWithFiles twoHalf) ≠ length (getRoms game).
Proof.
  assert (twoHalf
          ∈ getOrEmpty
              (incompleteRomTypesToCandidates
                 (DATStatus_constructor (mkDat "T" [gameOne; gameTwo])
                    [oneComplete; twoHalf])) GAME)
    as Hin by (apply (bool_decide_unpack _); vm_compute; exact I).
  exact (incomplete_candidate_count_differs (mkDat "T" [gameOne; gameTwo])
           [oneComplete; twoHalf] GAME twoHalf Hin).
Defined.

(** C6, as worded, fails: the one input file of a complete candidate of a
    retail game is returned twice, once for [games] and once for
    [retail releases]. *)
Lemma spec_inputFilesDeduplicated_fails :
  ¬ spec_inputFilesDeduplicated
      (DATStatus_constructor (mkDat "T" [gameRetail]) [retailComplete]).
Proof.
  unfold spec_inputFilesDeduplicated. intros Hnodup.
  vm_compute in Hnodup. apply NoDup_cons in Hnodup as [Hnotin _].
  apply Hnotin. left.
Qed.


(** A game and its copy with the device flag set have the same row. *)
Example csv_row_without_device :
  toCsv_rows localeCompare
    (DATStatus_constructor (mkDat "T" [gameOne; gameOneDevice]) [oneComplete])
    plainOptions
  = [ [ "T"; "One"; "FOUND"; "in/a.rom"; "false"; "false"; "false"; "false";
        "false"; "false"; "false"; "false"; "false"; "false"; "false";
        "false"; "false" ];
      [ "T"; "One"; "FOUND"; "in/a.rom"; "false"; "false"; "false"; "false";
        "false"; "false"; "false"; "false"; "false"; "false"; "false";
        "false"; "false" ] ].
Proof. vm_compute. reflexivity. Qed.


(** C10, as worded, fails: under [onlyBios] the allow-list holds [BIOSes] and
    [patched games] only, and a game without roms that is not a BIOS is filed
    under [games] alone. *)
Lemma spec_emptyGameAnyFound_fails :
  ¬ spec_emptyGameAnyFound (mkDat "T" [gameEmpty]).
Proof.
  intros Hspec.
  pose proof (Hspec gameEmpty onlyBiosOptions (list_elem_of_here _ _) eq_refl)
    as Hfound.
  vm_compute in Hfound. discriminate.
Qed.

Lemma empty_game_counts_as_found_witness :
  let this := DATStatus_constructor (mkDat "T" [gameEmpty]) [] in
  let found := getOrEmpty (foundRomTypesToCandidates this) GAME in
  None ∈ found
  ∧ 0 < length found
  ∧ length (filter (λ entry, entry = None) found)
    = length
        (filter
           (λ game, qualifies game GAME ∧ length (getRoms game) = 0
                    ∧ firstCandidate [] game = None)
           (getGames (mkDat "T" [gameEmpty])))
  ∧ ∀ options,
      GAME ∈ getAllowedTypes options → anyGamesFound this options = true.
Proof.
  assert (∀ candidate : WriteCandidate,
            candidate ∈ [] → hashCode (getGame candidate) ≠ hashCode gameEmpty)
    as Hnone by (intros candidate Hin; by apply elem_of_nil in Hin).
  exact (empty_game_counts_as_found (mkDat "T" [gameEmpty]) [] gameEmpty GAME
           (list_elem_of_here _ _) eq_refl Hnone eq_refl).
Defined.

(** Without the assumption on hash codes the amended C4 fails as well: were
    the hash code the name alone, two games of the catalog of one name and
    of different rom counts would share their first candidate, found for the
    one and incomplete for the other. *)
Example partitions_overlap_on_hash_collision :
  let gameOne' := mkGame "One" [romA; romB] false false false in
  let this := DATStatus_constructor (mkDat "T" [gameOne; gameOne']) [oneComplete] in
  appearsInFound this GAME gameOne ∧ appearsInIncomplete this GAME gameOne.
Proof.
  split; exists oneComplete; (split; [|reflexivity]);
    apply (bool_decide_unpack _); vm_compute; exact I.
Qed.

(** The example of the specification, CSV side: GameA is [FOUND], GameB is
    [INCOMPLETE] and GameC, without roms, is [FOUND]. *)
Example csv_of_the_specification :
  let gameA := mkGame "GameA" [romA; romB] false false false in
  let gameB := mkGame "GameB" [romA; {| romName := "c.rom"; romSize := 8 |}]
                 false false false in
  let gameC := mkGame "GameC" [] false false false in
  let candidates :=
    [ {| getGame := gameA;
         getRomsWithFiles := [resolved romA "in/a.rom"; resolved romB "in/b.rom"];
         isPatched := false |};
      {| getGame := gameB; getRomsWithFiles := [resolved romA "in/a.rom"];
         isPatched := false |} ] in
  (λ row : list string, (row !! 1, row !! 2)) <$>
    toCsv_rows localeCompare
      (DATStatus_constructor (mkDat "Test" [gameA; gameB; gameC]) candidates)
      plainOptions
  = [ (Some "GameA", Some "FOUND"); (Some "GameB", Some "INCOMPLETE");
      (Some "GameC", Some "FOUND") ].
Proof. vm_compute. reflexivity. Qed.

(** The console line of a catalog of one game, found and patched. *)
Example console_of_a_patched_game :
  toConsole toLocaleString chalk_rgb
    (DATStatus_constructor (mkDat "T" [gameOne])
       [ {| getGame := gameOne; getRomsWithFiles := [resolved romA "in/a.rom"];
            isPatched := true |} ])
    plainOptions
  = "1/1 games, 1 patched games found".
Proof. vm_compute. reflexivity. Qed.

(** The example of the specification: of GameA (two roms, both resolved),
    GameB (two roms, one resolved) and GameC (no rom), the fixdat holds
    GameB only. *)
Example fixdat_of_the_specification :
  let gameA := mkGame "GameA" [romA; romB] false false false in
  let gameB := mkGame "GameB" [romA; {| romName := "c.rom"; romSize := 8 |}]
                 false false false in
  let gameC := mkGame "GameC" [] false false false in
  let candidates :=
    [ {| getGame := gameA;
         getRomsWithFiles := [resolved romA "in/a.rom"; resolved romB "in/b.rom"];
         isPatched := false |};
      {| getGame := gameB; getRomsWithFiles := [resolved romA "in/a.rom"];
         isPatched := false |} ] in
  getGames (FixdatCreator.fixdatOf plainOptions (mkDat "Test" [gameA; gameB; gameC])
              candidates)
  = [gameB].
Proof. vm_compute. reflexivity. Qed.

(** With a file system that does not fail, [create] resolves with the path
    of the fixdat. *)
Example create_resolves_with_the_path :
  (FixdatCreator.create noFsError toXmlDat getFilename path_join plainOptions
     (mkDat "T" [gameOne; gameTwo]) [oneComplete; twoHalf] emptyWorld).1
  = FixdatCreator.Resolved (Some "fixdats/fixdat.dat").
Proof. vm_compute. reflexivity. Qed.

(** Where the output directory is a regular file, [exists] answers true, no
    directory is made, and the write fails: [create] rejects with the error
    of the write and no file has changed. *)
Example create_rejects_below_a_file :
  let result :=
    FixdatCreator.create notADirectory toXmlDat getFilename path_join plainOptions
      (mkDat "T" [gameOne; gameTwo]) [oneComplete; twoHalf] fileInTheWayWorld in
  result.1 = FixdatCreator.Rejected "ENOTDIR"
  ∧ FixdatCreator.fileContents result.2
    = FixdatCreator.fileContents fileInTheWayWorld.
Proof. split; vm_compute; reflexivity. Qed.

End Concrete.

(** * Further properties of the code *)

(** ** [append] and [pushValueIntoMap], key by key *)

Section MapUpdates.
Context {T : Type}.
Implicit Types (map : list (ROMTypeValue * list T)) (value : T).

Lemma JsMap_get_append map romType value type :
  JsMap.get (append map romType value) type
  = if decide (romType = type)
    then Some (getOrEmpty map romType ++ [value])
    else JsMap.get map type.
Proof.
  unfold append, getOrEmpty, JsMap.has.
  destruct (JsMap.get map romType) as [values|] eqn:Hget;
    rewrite JsMap_get_set; by destruct (decide (romType = type)).
Qed.

Lemma append_keys map romType value :
  JsMap.keys (append map romType value)
  = if JsMap.has map romType then JsMap.keys map else JsMap.keys map ++ [romType].
Proof.
  unfold append. destruct (JsMap.has map romType) eqn:Hhas.
  - destruct (JsMap.get map romType); [|done]. by rewrite JsMap_keys_set, Hhas.
  - by rewrite JsMap_keys_set, Hhas.
Qed.

(** An array stored in a map is never empty once every update is an
    [append]. *)
Lemma append_nonempty map romType value :
  (∀ type values, JsMap.get map type = Some values → values ≠ []) →
  ∀ type values,
    JsMap.get (append map romType value) type = Some values → values ≠ [].
Proof.
  intros Hmap type values. rewrite JsMap_get_append.
  destruct (decide (romType = type)); [|by apply Hmap].
  intros [= <-]. by destruct (getOrEmpty map romType).
Qed.

Lemma pushValueIntoMap_nonempty map game value :
  (∀ type values, JsMap.get map type = Some values → values ≠ []) →
  ∀ type values,
    JsMap.get (pushValueIntoMap map game value) type = Some values → values ≠ [].
Proof.
  intros Hmap. unfold pushValueIntoMap.
  destruct (getIsBios game), (getIsDevice game), (isRetail game);
    repeat apply append_nonempty; done.
Qed.

(** X1. [append] is a push on the array of its key: afterwards the key holds
    the former array, or the empty one when the key was absent, followed by
    the value; every other key reads as before; the keys keep their order,
    and a new key comes last. *)
Theorem append_get_and_keys map romType value :
  JsMap.get (append map romType value) romType
  = Some (getOrEmpty map romType ++ [value])
  ∧ (∀ type, type ≠ romType →
       JsMap.get (append map romType value) type = JsMap.get map type)
  ∧ JsMap.keys (append map romType value)
    = JsMap.keys map
      ++ (if JsMap.has map romType then [] else [romType]).
Proof.
  split_and!.
  - by rewrite JsMap_get_append, decide_True.
  - intros type Hne. by rewrite JsMap_get_append, decide_False.
  - rewrite append_keys. destruct (JsMap.has map romType); by rewrite ?app_nil_r.
Qed.

(** X2. [pushValueIntoMap] pushes the value once on the array of [games] and
    once on the array of each of [BIOSes], [devices] and [retail releases]
    whose flag the game has; it leaves the arrays of the other keys, that of
    [patched games] among them, as they were. *)
Theorem pushValueIntoMap_get map game value type :
  JsMap.get (pushValueIntoMap map game value) type
  = if qualifies game type
    then Some (getOrEmpty map type ++ [value])
    else JsMap.get map type.
Proof.
  unfold pushValueIntoMap, getOrEmpty.
  destruct (getIsBios game) eqn:Hbios, (getIsDevice game) eqn:Hdevice,
    (isRetail game) eqn:Hretail;
    rewrite ?JsMap_get_append; unfold getOrEmpty; rewrite ?JsMap_get_append;
    destruct type; simpl; rewrite ?Hbios, ?Hdevice, ?Hretail; done.
Qed.

End MapUpdates.

(** ** The constructor, from its inputs *)

Lemma PATCHED_allowed (options : Options) : PATCHED ∈ getAllowedTypes options.
Proof.
  destruct options as [? ? ? ? onlyBios onlyDevice onlyRetail noBios noDevice].
  unfold getAllowedTypes; simpl.
  destruct onlyBios, onlyDevice, onlyRetail, noBios, noDevice;
    apply (bool_decide_unpack _); vm_compute; exact I.
Qed.

Section ConstructorInputs.
Context `{HashCode Game}.
Implicit Types (candidates : list WriteCandidate) (game : Game)
  (this : DATStatus) (type : ROMTypeValue).

(** X3. The index of the constructor groups the candidates by the hash code
    of their game: the group of a key is the list of the candidates of that
    hash code, in the order of the candidate list, and it is never empty; a
    key has no group exactly when no candidate has that hash code; every
    candidate is in the group of its own game. *)
Theorem indexCandidates_groups candidates :
  (∀ key group,
     indexCandidates candidates !! key = Some group →
     group ≠ []
     ∧ group = filter (λ candidate, hashCode (getGame candidate) = key) candidates)
  ∧ (∀ key,
       indexCandidates candidates !! key = None
       ↔ ∀ candidate, candidate ∈ candidates → hashCode (getGame candidate) ≠ key)
  ∧ (∀ candidate,
       candidate ∈ candidates →
       ∃ group,
         indexCandidates candidates !! hashCode (getGame candidate) = Some group
         ∧ candidate ∈ group).
Proof.
  split_and!.
  - intros key group. rewrite indexCandidates_lookup.
    destruct (filter _ candidates) eqn:Hfilter; [done|]. by intros [= <-].
  - intros key. rewrite indexCandidates_lookup. split.
    + destruct (filter _ candidates) eqn:Hfilter; [|done].
      intros _ candidate Hin Hkey.
      by eapply (filter_nil_not_elem_of _ _ candidate Hfilter).
    + intros Hnone.
      destruct (filter _ candidates) as [|candidate group] eqn:Hfilter; [done|].
      assert (candidate ∈ filter (λ c, hashCode (getGame c) = key) candidates)
        as [Hkey Hin]%list_elem_of_filter by (rewrite Hfilter; left).
      by destruct (Hnone candidate Hin).
  - intros candidate Hin. rewrite indexCandidates_lookup.
    assert (candidate
            ∈ filter (λ c, hashCode (getGame c) = hashCode (getGame candidate))
                candidates) as Hgroup by (by apply list_elem_of_filter).
    destruct (filter _ candidates) as [|first group] eqn:Hfilter.
    + by apply elem_of_nil in Hgroup.
    + by eexists.
Qed.

(** X4. The all-partition of a constructed status: under [games] it is the
    game list of the catalog, as it stands; under [BIOSes], [devices] and
    [retail releases] it is the games of the catalog with that flag, in the
    order of the catalog; under [patched games] it is the games of the
    patched candidates, in the order of the candidates. *)
Theorem constructor_all_partition (dat : DAT) candidates :
  let all := getOrEmpty (allRomTypesToGames (DATStatus_constructor dat candidates)) in
  all GAME = getGames dat
  ∧ all BIOS = filter (λ game, getIsBios game) (getGames dat)
  ∧ all DEVICE = filter (λ game, getIsDevice game) (getGames dat)
  ∧ all RETAIL = filter (λ game, isRetail game) (getGames dat)
  ∧ all PATCHED = getGame <$> filter (λ candidate, isPatched candidate) candidates.
Proof.
  intros all. subst all. rewrite !constructor_all. simpl.
  rewrite filter_qualifies_PATCHED, !app_nil_r. split_and!; try done.
  induction (getGames dat) as [|game games IH]; [done|].
  rewrite filter_cons. simpl. by rewrite IH.
Qed.

Lemma length_found_incomplete candidates (games : list Game) :
  (length (omap (foundEntry candidates) games)
   + length (omap (incompleteEntry candidates) games)
   ≤ length games)%nat.
Proof.
  induction games as [|game games IH]; [done|].
  csimpl. unfold foundEntry at 1, incompleteEntry at 1.
  destruct (firstCandidate candidates game) as [candidate|].
  - destruct (decide (length (getRomsWithFiles candidate) ≠ _)); simpl; lia.
  - destruct (decide (length (getRoms game) = 0)); simpl; lia.
Qed.

(** X5. Under each of [games], [BIOSes], [devices] and [retail releases], the
    found and the incomplete entries of a constructed status together are
    at most as many as the games of the all-partition; the count of found
    entries never exceeds the count of all games. *)
Theorem constructor_counts_bounded (dat : DAT) candidates type :
  type ≠ PATCHED →
  let this := DATStatus_constructor dat candidates in
  (length (getOrEmpty (foundRomTypesToCandidates this) type)
   + length (getOrEmpty (incompleteRomTypesToCandidates this) type)
   ≤ length (getOrEmpty (allRomTypesToGames this) type))%nat.
Proof.
  intros Hne this. subst this.
  rewrite constructor_found, constructor_incomplete, constructor_all.
  destruct (decide (type = PATCHED)); [done|]. rewrite !app_nil_r.
  apply length_found_incomplete.
Qed.

Lemma omap_incompleteEntry_nil (games : list Game) :
  omap (incompleteEntry []) games = [].
Proof. induction games as [|game games IH]; [done|]. by csimpl. Qed.

Lemma omap_foundEntry_nil (games : list Game) :
  omap (foundEntry []) games
  = (λ _, None) <$> filter (λ game, length (getRoms game) = 0) games.
Proof.
  induction games as [|game games IH]; [done|].
  csimpl. rewrite filter_cons. unfold foundEntry at 1, firstCandidate.
  rewrite filter_nil. simpl.
  destruct (decide (length (getRoms game) = 0)); csimpl; by rewrite IH.
Qed.

(** X6. The partitions of a constructed status hold candidates of the
    candidate list only. Without any candidate the incomplete partition is
    empty, and the found partition holds nothing but the [undefined] entries
    of the games that declare no rom. *)
Theorem constructor_partitions_from_candidates (dat : DAT) candidates type :
  let this := DATStatus_constructor dat candidates in
  (∀ candidate,
     Some candidate ∈ getOrEmpty (foundRomTypesToCandidates this) type
     ∨ candidate ∈ getOrEmpty (incompleteRomTypesToCandidates this) type →
     candidate ∈ candidates)
  ∧ (candidates = [] →
     getOrEmpty (incompleteRomTypesToCandidates this) type = []
     ∧ getOrEmpty (foundRomTypesToCandidates this) type
       = (λ _, None) <$>
           filter (λ game, qualifies game type ∧ length (getRoms game) = 0)
             (getGames dat)).
Proof.
  intros this. subst this. split.
  - intros candidate [Hfound|Hincomplete].
    + apply elem_of_constructor_found in Hfound
        as [(game & _ & _ & Hentry)|(_ & c & [= <-] & Hin & _)]; [|done].
      unfold foundEntry in Hentry.
      destruct (firstCandidate candidates game) as [first|] eqn:Hfirst.
      * destruct (decide _); [done|]. simplify_eq.
        by apply firstCandidate_Some in Hfirst as [? _].
      * by destruct (decide _).
    + apply elem_of_constructor_incomplete in Hincomplete
        as (game & _ & _ & Hentry).
      unfold incompleteEntry in Hentry.
      destruct (firstCandidate candidates game) as [first|] eqn:Hfirst; [|done].
      destruct (decide _); [|done]. simplify_eq.
      by apply firstCandidate_Some in Hfirst as [? _].
  - intros ->. rewrite constructor_incomplete, constructor_found.
    rewrite filter_nil. simpl.
    replace (if decide (type = PATCHED) then [] else [])
      with (@nil (option WriteCandidate)) by (by destruct (decide _)).
    rewrite app_nil_r.
    rewrite omap_incompleteEntry_nil, omap_foundEntry_nil, list_filter_filter.
    split; [done|]. f_equal. apply list_filter_iff. intros game. tauto.
Qed.

End ConstructorInputs.

(** ** The allow-list, in order *)

(** X7. The allow-list keeps the fixed order [games], [BIOSes], [devices],
    [retail releases], [patched games], names no ROM type twice, and always
    ends with [patched games]; it is never empty. *)
Theorem getAllowedTypes_order (options : Options) :
  getAllowedTypes options `sublist_of` [GAME; BIOS; DEVICE; RETAIL; PATCHED]
  ∧ NoDup (getAllowedTypes options)
  ∧ last (getAllowedTypes options) = Some PATCHED.
Proof.
  destruct options as [? ? ? ? onlyBios onlyDevice onlyRetail noBios noDevice].
  unfold getAllowedTypes; simpl.
  destruct onlyBios, onlyDevice, onlyRetail, noBios, noDevice; simpl;
    (split_and!;
     [ repeat first [apply sublist_skip | apply sublist_cons | apply sublist_nil]
     | apply (bool_decide_unpack _); vm_compute; exact I
     | reflexivity ]).
Qed.

(** ** Queries on a constructed status *)

Section ConstructedQueries.
Context `{HashCode Game}.
Implicit Types (candidates : list WriteCandidate) (game : Game)
  (this : DATStatus) (type : ROMTypeValue).

Lemma foundEntry_is_Some candidates game :
  is_Some (foundEntry candidates game)
  ↔ match indexCandidates candidates !! hashCode game ≫= head with
    | Some candidate =>
        length (getRomsWithFiles candidate) = length (getRoms game)
    | None => length (getRoms game) = 0
    end.
Proof.
  rewrite indexCandidates_head. unfold foundEntry.
  destruct (firstCandidate candidates game) as [candidate|].
  - destruct (decide _) as [Hne|Heq%dec_stable].
    + split; [by intros [? ?]|done].
    + split; [done|by eexists].
  - destruct (decide _) as [Hzero|Hpos].
    + split; [done|by eexists].
    + split; [by intros [? ?]|done].
Qed.

Lemma length_pos_elem_of {A : Type} (l : list A) :
  0 < length l ↔ ∃ x, x ∈ l.
Proof.
  destruct l as [|x l]; simpl; split.
  - lia.
  - by intros [x ?%elem_of_nil].
  - intros _. exists x. left.
  - lia.
Qed.

(** X8. On a constructed status [anyGamesFound] is true exactly when some
    candidate is patched, whatever the filters, or some game of the catalog
    of an allowed ROM type is found: its first candidate resolves as many
    roms as the game declares, or it has no candidate and declares no rom. *)
Theorem anyGamesFound_constructed (dat : DAT) candidates (options : Options) :
  anyGamesFound (DATStatus_constructor dat candidates) options = true
  ↔ (∃ candidate, candidate ∈ candidates ∧ isPatched candidate = true)
    ∨ ∃ game type,
        game ∈ getGames dat
        ∧ type ∈ getAllowedTypes options
        ∧ qualifies game type = true
        ∧ match indexCandidates candidates !! hashCode game ≫= head with
          | Some candidate =>
              length (getRomsWithFiles candidate) = length (getRoms game)
          | None => length (getRoms game) = 0
          end.
Proof.
  rewrite anyGamesFound_true. setoid_rewrite length_pos_elem_of.
  setoid_rewrite elem_of_constructor_found. split.
  - intros (type & Hallowed & entry
            & [(game & Hgame & Hqualifies & Hentry)|(_ & c & _ & Hin & Hpatched)]).
    + right. exists game, type. split_and!; [done..|].
      apply foundEntry_is_Some. by eexists.
    + left. by exists c.
  - intros [(c & Hin & Hpatched)|(game & type & Hgame & Hallowed & Hqualifies & Hfound)].
    + exists PATCHED. split; [apply PATCHED_allowed|].
      exists (Some c). right. split; [done|]. by exists c.
    + apply foundEntry_is_Some in Hfound as [entry Hentry].
      exists type. split; [done|]. exists entry. left. by exists game.
Qed.

Lemma elem_of_getInputFiles this (file : File) :
  NoDup (JsMap.keys (foundRomTypesToCandidates this)) →
  NoDup (JsMap.keys (incompleteRomTypesToCandidates this)) →
  file ∈ getInputFiles this
  ↔ ∃ type candidate romWithFiles,
      (Some candidate ∈ getOrEmpty (foundRomTypesToCandidates this) type
       ∨ candidate ∈ getOrEmpty (incompleteRomTypesToCandidates this) type)
      ∧ romWithFiles ∈ getRomsWithFiles candidate
      ∧ file = getInputFile romWithFiles.
Proof.
  intros Hfound Hinc.
  unfold getInputFiles. rewrite list_elem_of_fmap.
  setoid_rewrite list_elem_of_bind. setoid_rewrite list_elem_of_omap.
  rewrite <-(definedValues_keys (incompleteRomTypesToCandidates this)) in Hinc.
  assert (∀ entry : option WriteCandidate,
            entry ∈ mjoin (JsMap.values (foundRomTypesToCandidates this)
                           ++ JsMap.values
                                (definedValues (incompleteRomTypesToCandidates this)))
            ↔ ∃ type,
                entry ∈ getOrEmpty (foundRomTypesToCandidates this) type
                ∨ entry ∈ Some <$> getOrEmpty (incompleteRomTypesToCandidates this) type)
    as Hentry.
  { intros entry. rewrite join_app, elem_of_app.
    rewrite (elem_of_join_values _ _ Hfound), (elem_of_join_values _ _ Hinc).
    setoid_rewrite getOrEmpty_definedValues.
    split; [intros [[type ?]|[type ?]]|intros [type [?|?]]]; eauto. }
  setoid_rewrite Hentry. split.
  - intros (rwf & -> & candidate & Hrwf & entry & (type & Hin) & Hid).
    simpl in Hid. subst entry. exists type, candidate, rwf. split_and!; [|done..].
    destruct Hin as [Hin|Hin]; [by left|right].
    apply list_elem_of_fmap in Hin as (c & Hc & Hin). by simplify_eq.
  - intros (type & candidate & rwf & Hin & Hrwf & ->).
    exists rwf. split; [done|]. exists candidate. split; [done|].
    exists (Some candidate). split; [|done]. exists type.
    destruct Hin as [Hin|Hin]; [by left|right]. by apply list_elem_of_fmap_2.
Qed.

(** X9. The input files of a constructed status are the input files of the
    candidates that are the first candidate of a game of the catalog, and of
    the patched candidates; the files of any other candidate are not
    reported. *)
Theorem getInputFiles_sources (dat : DAT) candidates (file : File) :
  file ∈ getInputFiles (DATStatus_constructor dat candidates)
  ↔ ∃ candidate romWithFiles,
      ((∃ game, game ∈ getGames dat
                ∧ indexCandidates candidates !! hashCode game ≫= head
                  = Some candidate)
       ∨ (candidate ∈ candidates ∧ isPatched candidate = true))
      ∧ romWithFiles ∈ getRomsWithFiles candidate
      ∧ file = getInputFile romWithFiles.
Proof.
  destruct (constructor_NoDup_keys dat candidates) as [Hfound Hinc].
  rewrite (elem_of_getInputFiles _ _ Hfound Hinc).
  setoid_rewrite elem_of_constructor_found.
  setoid_rewrite elem_of_constructor_incomplete.
  setoid_rewrite indexCandidates_head. split.
  - intros (type & candidate & rwf & Hin & Hrwf & ->).
    exists candidate, rwf. split_and!; [|done..].
    destruct Hin as [[(game & Hgame & _ & Hentry)|(_ & c & [= <-] & ? & ?)]
                    |(game & Hgame & _ & Hentry)].
    + left. exists game. split; [done|]. unfold foundEntry in Hentry.
      destruct (firstCandidate candidates game); repeat case_decide; by simplify_eq.
    + by right.
    + left. exists game. split; [done|]. unfold incompleteEntry in Hentry.
      destruct (firstCandidate candidates game); repeat case_decide; by simplify_eq.
  - intros (candidate & rwf & Hsource & Hrwf & ->).
    destruct Hsource as [(game & Hgame & Hfirst)|[Hin Hpatched]].
    + exists GAME, candidate, rwf. split_and!; [|done..].
      destruct (decide (length (getRomsWithFiles candidate) ≠ length (getRoms game)))
        as [Hne|Heq].
      * right. exists game. split_and!; [done..|].
        unfold incompleteEntry. by rewrite Hfirst, decide_True.
      * left. left. exists game. split_and!; [done..|].
        unfold foundEntry. by rewrite Hfirst, decide_False.
    + exists PATCHED, candidate, rwf. split_and!; [|done..].
      left. right. split; [done|]. by exists candidate.
Qed.

End ConstructedQueries.

(** ** The console line *)

Section Console.
Variable toLocaleString : nat → string.
Variable chalk_rgb : nat → nat → nat → string → string.

(** X10. The console line has one segment for every allowed ROM type that
    has a game in the all-partition, in the order of the allow-list, the
    segments joined by a comma and a space and followed by [written] or
    [found]; no segment is empty, so the filter on empty segments drops
    none. *)
Theorem toConsole_segments (this : DATStatus) (options : Options) :
  toConsole toLocaleString chalk_rgb this options
  = join ", "
      (toConsole_type toLocaleString chalk_rgb this options <$>
         filter (λ type, getOrEmpty (allRomTypesToGames this) type ≠ [])
           (getAllowedTypes options))
    +:+ " " +:+ (if shouldWrite options then "written" else "found").
Proof.
  unfold toConsole. f_equal. f_equal.
  rewrite filter_fmap_all by (intros type; apply toConsole_type_nonempty).
  f_equal. apply list_filter_iff. intros type. unfold getOrEmpty.
  destruct (JsMap.get (allRomTypesToGames this) type) as [[|game games]|].
  - by rewrite bool_decide_eq_false_2 by (simpl; lia).
  - by rewrite bool_decide_eq_true_2 by (simpl; lia).
  - done.
Qed.

(** X11. For an empty catalog and candidates none of which is patched, the
    console line has no segment: it is a space followed by [written] or
    [found]. *)
Theorem toConsole_nothing_to_report `{HashCode Game} (dat : DAT)
    (candidates : list WriteCandidate) (options : Options) :
  getGames dat = [] →
  (∀ candidate, candidate ∈ candidates → isPatched candidate = false) →
  toConsole toLocaleString chalk_rgb (DATStatus_constructor dat candidates) options
  = " " +:+ (if shouldWrite options then "written" else "found").
Proof.
  intros Hgames Hunpatched.
  assert (filter (λ candidate : WriteCandidate, isPatched candidate) candidates = [])
    as Hfilter.
  { induction candidates as [|c candidates IH]; [done|].
    rewrite filter_cons, (Hunpatched c) by left. simpl.
    apply IH. intros c' Hin. apply Hunpatched. by right. }
  unfold toConsole.
  assert (∀ type,
            JsMap.get
              (allRomTypesToGames (DATStatus_constructor dat candidates)) type
            = None) as Hnone.
  { intros type. unfold DATStatus_constructor. rewrite Hgames, Hfilter. done. }
  replace (filter _ (getAllowedTypes options)) with (@nil ROMTypeValue); [done|].
  symmetry. induction (getAllowedTypes options) as [|type types IH]; [done|].
  by rewrite filter_cons, Hnone.
Qed.

End Console.

(** ** Keys and arrays of a constructed status *)

Section ConstructedKeys.
Context `{HashCode Game}.

Lemma forEachGame_fold_nonempty (candidates : list WriteCandidate)
    (games : list Game) (this : DATStatus) :
  (∀ type values, JsMap.get (allRomTypesToGames this) type = Some values → values ≠ []) →
  (∀ type values,
     JsMap.get (foundRomTypesToCandidates this) type = Some values → values ≠ []) →
  (∀ type values,
     JsMap.get (incompleteRomTypesToCandidates this) type = Some values → values ≠ []) →
  let this' := foldl (constructor_forEachGame (indexCandidates candidates)) this games in
  (∀ type values, JsMap.get (allRomTypesToGames this') type = Some values → values ≠ [])
  ∧ (∀ type values,
       JsMap.get (foundRomTypesToCandidates this') type = Some values → values ≠ [])
  ∧ (∀ type values,
       JsMap.get (incompleteRomTypesToCandidates this') type = Some values →
       values ≠ []).
Proof.
  revert this. induction games as [|game games IH];
    intros this Hall Hfound Hincomplete; simpl; [done|].
  apply IH.
  - rewrite constructor_forEachGame_all. by apply pushValueIntoMap_nonempty.
  - rewrite constructor_forEachGame_found.
    destruct (foundEntry candidates game); [by apply pushValueIntoMap_nonempty|done].
  - rewrite constructor_forEachGame_incomplete.
    destruct (incompleteEntry candidates game);
      [by apply pushValueIntoMap_nonempty|done].
Qed.

Lemma forPatched_fold_nonempty (patched : list WriteCandidate) (this : DATStatus) :
  (∀ type values, JsMap.get (allRomTypesToGames this) type = Some values → values ≠ []) →
  (∀ type values,
     JsMap.get (foundRomTypesToCandidates this) type = Some values → values ≠ []) →
  let this' := foldl constructor_forPatched this patched in
  (∀ type values, JsMap.get (allRomTypesToGames this') type = Some values → values ≠ [])
  ∧ (∀ type values,
       JsMap.get (foundRomTypesToCandidates this') type = Some values → values ≠ []).
Proof.
  revert this. induction patched as [|candidate patched IH];
    intros this Hall Hfound; simpl; [done|].
  apply IH; simpl; by apply append_nonempty.
Qed.

(** X12. In each of the three maps of a constructed status a key is present
    exactly when games or candidates were filed under it: no key holds an
    empty array. *)
Theorem constructor_keys_present (dat : DAT) (candidates : list WriteCandidate)
    (type : ROMTypeValue) :
  let this := DATStatus_constructor dat candidates in
  (JsMap.has (allRomTypesToGames this) type = true
   ↔ getOrEmpty (allRomTypesToGames this) type ≠ [])
  ∧ (JsMap.has (foundRomTypesToCandidates this) type = true
     ↔ getOrEmpty (foundRomTypesToCandidates this) type ≠ [])
  ∧ (JsMap.has (incompleteRomTypesToCandidates this) type = true
     ↔ getOrEmpty (incompleteRomTypesToCandidates this) type ≠ []).
Proof.
  intros this.
  assert ((∀ type values,
             JsMap.get (allRomTypesToGames this) type = Some values → values ≠ [])
          ∧ (∀ type values,
               JsMap.get (foundRomTypesToCandidates this) type = Some values →
               values ≠ [])
          ∧ (∀ type values,
               JsMap.get (incompleteRomTypesToCandidates this) type = Some values →
               values ≠ [])) as (Hall & Hfound & Hincomplete).
  { subst this. unfold DATStatus_constructor.
    set (start := {| dat := dat; allRomTypesToGames := JsMap.empty;
                     foundRomTypesToCandidates := JsMap.empty;
                     incompleteRomTypesToCandidates := JsMap.empty |}).
    destruct (forEachGame_fold_nonempty candidates (getGames dat) start)
      as (Hall & Hfound & Hincomplete); [done..|].
    rewrite forPatched_fold_incomplete.
    destruct (forPatched_fold_nonempty
                (filter (λ candidate, isPatched candidate) candidates)
                (foldl (constructor_forEachGame (indexCandidates candidates)) start
                   (getGames dat)))
      as (Hall' & Hfound'); done. }
  unfold JsMap.has, getOrEmpty. split_and!.
  - destruct (JsMap.get (allRomTypesToGames this) type) as [values|] eqn:Hget;
      simpl; [|done]. split; [intros _; by eapply Hall|done].
  - destruct (JsMap.get (foundRomTypesToCandidates this) type) as [values|] eqn:Hget;
      simpl; [|done]. split; [intros _; by eapply Hfound|done].
  - destruct (JsMap.get (incompleteRomTypesToCandidates this) type)
      as [values|] eqn:Hget; simpl; [|done].
    split; [intros _; by eapply Hincomplete|done].
Qed.

End ConstructedKeys.

(** ** The CSV export, game by game *)

Section CsvGames.
Context `{HashCode Game}.
Context `{JsToString Game} `{JsToString WriteCandidate}.
Variable localeCompare : string → string → Z.
Implicit Types (candidates : list WriteCandidate) (game : Game)
  (this : DATStatus) (type : ROMTypeValue) (options : Options).

Lemma find_found_match this options game :
  find (λ candidate, equals (getGame candidate) game)
    (getValuesForAllowedTypes options (foundRomTypesToCandidates this)) ≠ None
  ↔ ∃ type candidate,
      type ∈ getAllowedTypes options
      ∧ Some candidate ∈ getOrEmpty (foundRomTypesToCandidates this) type
      ∧ equals (getGame candidate) game = true.
Proof.
  rewrite find_is_Some. setoid_rewrite elem_of_getValuesForAllowedTypes.
  split; [intros (c & (type & ? & ?) & ?)|intros (type & c & ? & ? & ?)]; eauto 10.
Qed.

Lemma find_incomplete_match this options game :
  find (λ candidate, equals (getGame candidate) game)
    (getValuesForAllowedTypes options
       (definedValues (incompleteRomTypesToCandidates this))) ≠ None
  ↔ ∃ type candidate,
      type ∈ getAllowedTypes options
      ∧ candidate ∈ getOrEmpty (incompleteRomTypesToCandidates this) type
      ∧ equals (getGame candidate) game = true.
Proof.
  rewrite find_is_Some. setoid_rewrite elem_of_getValuesForAllowedTypes.
  setoid_rewrite getOrEmpty_definedValues.
  split; [intros (c & (type & ? & Hin) & ?)|intros (type & c & ? & ? & ?)].
  - apply list_elem_of_fmap in Hin as (c' & ? & ?). simplify_eq. eauto 10.
  - exists c. split; [|done]. exists type. split; [done|].
    by apply list_elem_of_fmap_2.
Qed.

(** The games that get a row: those of the all-partition under an allowed
    ROM type. *)
Lemma toCsv_rows_elem this options game type :
  type ∈ getAllowedTypes options →
  game ∈ getOrEmpty (allRomTypesToGames this) type →
  toCsv_row this options
    (getValuesForAllowedTypes options
       (definedValues (incompleteRomTypesToCandidates this)))
    (getValuesForAllowedTypes options (foundRomTypesToCandidates this)) game
  ∈ toCsv_rows localeCompare this options.
Proof.
  intros Htype Hgame. unfold toCsv_rows. apply list_elem_of_fmap_2.
  rewrite sortWith_Permutation, elem_of_reduceUnique.
  apply elem_of_getValuesForAllowedTypes. exists type. split; [done|].
  rewrite getOrEmpty_definedValues. by apply list_elem_of_fmap_2.
Qed.

Lemma constructor_all_elem (dat : DAT) candidates game type :
  game ∈ getGames dat → qualifies game type = true →
  game ∈ getOrEmpty (allRomTypesToGames (DATStatus_constructor dat candidates)) type.
Proof.
  intros Hgame Hqualifies. rewrite constructor_all, elem_of_app. left.
  apply list_elem_of_filter. by rewrite Hqualifies.
Qed.

Lemma constructor_found_in_candidates (dat : DAT) candidates type candidate :
  Some candidate
  ∈ getOrEmpty (foundRomTypesToCandidates (DATStatus_constructor dat candidates)) type →
  candidate ∈ candidates.
Proof.
  intros [(game & _ & _ & Hentry)|(_ & c & [= <-] & Hin & _)]%elem_of_constructor_found;
    [|done].
  unfold foundEntry in Hentry.
  destruct (firstCandidate candidates game) as [first|] eqn:Hfirst.
  - destruct (decide _); [done|]. simplify_eq.
    by apply firstCandidate_Some in Hfirst as [? _].
  - by destruct (decide _).
Qed.

Lemma constructor_incomplete_in_candidates (dat : DAT) candidates type candidate :
  candidate
  ∈ getOrEmpty
      (incompleteRomTypesToCandidates (DATStatus_constructor dat candidates)) type →
  candidate ∈ candidates.
Proof.
  intros (game & _ & _ & Hentry)%elem_of_constructor_incomplete.
  unfold incompleteEntry in Hentry.
  destruct (firstCandidate candidates game) as [first|] eqn:Hfirst; [|done].
  destruct (decide _); [|done]. simplify_eq.
  by apply firstCandidate_Some in Hfirst as [? _].
Qed.

(** X13. A game of the catalog that declares a rom and has no candidate gets
    a row of status [MISSING], without file and not patched, as soon as the
    allow-list holds a ROM type the game qualifies for. *)
Theorem toCsv_missing_game (dat : DAT) candidates options game type :
  game ∈ getGames dat →
  type ∈ getAllowedTypes options →
  qualifies game type = true →
  length (getRoms game) ≠ 0 →
  (∀ candidate, candidate ∈ candidates →
     hashCode (getGame candidate) ≠ hashCode game) →
  ∃ row,
    row ∈ toCsv_rows localeCompare (DATStatus_constructor dat candidates) options
    ∧ row !! 1 = Some (gameName game)
    ∧ row !! 2 = Some "MISSING"
    ∧ row !! 3 = Some EmptyString
    ∧ row !! 4 = Some "false".
Proof.
  intros Hgame Htype Hqualifies Hroms Hnone.
  set (this := DATStatus_constructor dat candidates).
  eexists. split.
  { apply (toCsv_rows_elem this options game type Htype).
    by apply constructor_all_elem. }
  assert (find (λ c, equals (getGame c) game)
            (getValuesForAllowedTypes options (foundRomTypesToCandidates this))
          = None) as Hfound.
  { apply eq_None_not_Some. intros Hsome%not_eq_None_Some.
    apply find_found_match in Hsome as (type' & c & _ & Hin & Heq).
    apply constructor_found_in_candidates in Hin.
    apply bool_decide_eq_true in Heq. by destruct (Hnone c Hin). }
  assert (find (λ c, equals (getGame c) game)
            (getValuesForAllowedTypes options
               (definedValues (incompleteRomTypesToCandidates this)))
          = None) as Hincomplete.
  { apply eq_None_not_Some. intros Hsome%not_eq_None_Some.
    apply find_incomplete_match in Hsome as (type' & c & _ & Hin & Heq).
    apply constructor_incomplete_in_candidates in Hin.
    apply bool_decide_eq_true in Heq. by destruct (Hnone c Hin). }
  unfold toCsv_row. rewrite Hfound, Hincomplete. unfold buildCsvRow. simpl.
  split_and!; try done.
  unfold toCsv_status. simpl. by rewrite bool_decide_eq_false_2.
Qed.

(** X14. A game of the catalog gets a row of status [FOUND], as soon as the
    allow-list holds a ROM type the game qualifies for, when it declares no
    rom, or its first candidate resolves as many roms as it declares, or
    some patched candidate is a candidate of the game, however many roms
    that one resolves. *)
Theorem toCsv_found_game (dat : DAT) candidates options game type :
  game ∈ getGames dat →
  type ∈ getAllowedTypes options →
  qualifies game type = true →
  length (getRoms game) = 0
  ∨ (∃ candidate,
       indexCandidates candidates !! hashCode game ≫= head = Some candidate
       ∧ length (getRomsWithFiles candidate) = length (getRoms game))
  ∨ (∃ candidate,
       candidate ∈ candidates ∧ isPatched candidate = true
       ∧ hashCode (getGame candidate) = hashCode game) →
  ∃ row,
    row ∈ toCsv_rows localeCompare (DATStatus_constructor dat candidates) options
    ∧ row !! 1 = Some (gameName game)
    ∧ row !! 2 = Some "FOUND".
Proof.
  intros Hgame Htype Hqualifies Hcases.
  set (this := DATStatus_constructor dat candidates).
  eexists. split.
  { apply (toCsv_rows_elem this options game type Htype).
    by apply constructor_all_elem. }
  split; [done|].
  unfold toCsv_row, buildCsvRow. simpl. rewrite toCsv_status_cases.
  rewrite decide_True; [done|].
  destruct Hcases as [Hzero|[(c & Hfirst & Hcomplete)|(c & Hin & Hpatched & Hhash)]].
  - by right.
  - left. apply find_found_match. exists type, c. split_and!; [done| |].
    + apply elem_of_constructor_found. left. exists game. split_and!; [done..|].
      rewrite indexCandidates_head in Hfirst.
      unfold foundEntry. rewrite Hfirst. by rewrite decide_False by (by intros ?).
    + rewrite indexCandidates_head in Hfirst.
      apply firstCandidate_Some in Hfirst as [_ Hhash].
      by apply bool_decide_eq_true.
  - left. apply find_found_match. exists PATCHED, c.
    split_and!; [apply PATCHED_allowed| |by apply bool_decide_eq_true].
    apply elem_of_constructor_found. right. split; [done|]. by exists c.
Qed.

(** X15. A game of the catalog that declares a rom gets a row of status
    [INCOMPLETE], as soon as the allow-list holds a ROM type the game
    qualifies for, when its first candidate resolves a number of roms other
    than the declared one, no patched candidate is a candidate of the game,
    and the games of the catalog that share a hash code declare the same
    number of roms. *)
Theorem toCsv_incomplete_game (dat : DAT) candidates options game type candidate :
  game ∈ getGames dat →
  type ∈ getAllowedTypes options →
  qualifies game type = true →
  length (getRoms game) ≠ 0 →
  indexCandidates candidates !! hashCode game ≫= head = Some candidate →
  length (getRomsWithFiles candidate) ≠ length (getRoms game) →
  (∀ patched, patched ∈ candidates → isPatched patched = true →
     hashCode (getGame patched) ≠ hashCode game) →
  (∀ game1 game2,
     game1 ∈ getGames dat → game2 ∈ getGames dat →
     hashCode game1 = hashCode game2 →
     length (getRoms game1) = length (getRoms game2)) →
  ∃ row,
    row ∈ toCsv_rows localeCompare (DATStatus_constructor dat candidates) options
    ∧ row !! 1 = Some (gameName game)
    ∧ row !! 2 = Some "INCOMPLETE".
Proof.
  intros Hgame Htype Hqualifies Hroms Hfirst Hne Hunpatched Hhash.
  set (this := DATStatus_constructor dat candidates).
  eexists. split.
  { apply (toCsv_rows_elem this options game type Htype).
    by apply constructor_all_elem. }
  split; [done|].
  rewrite indexCandidates_head in Hfirst.
  unfold toCsv_row, buildCsvRow. simpl. rewrite toCsv_status_cases.
  rewrite decide_False; [rewrite decide_True; [done|]|].
  - apply find_incomplete_match. exists type, candidate. split_and!; [done| |].
    + apply elem_of_constructor_incomplete. exists game. split_and!; [done..|].
      unfold incompleteEntry. by rewrite Hfirst, decide_True.
    + apply firstCandidate_Some in Hfirst as [_ ?]. by apply bool_decide_eq_true.
  - intros [Hfound|Hzero]; [|done].
    apply find_found_match in Hfound as (type' & c & _ & Hin & Heq).
    apply bool_decide_eq_true in Heq.
    apply elem_of_constructor_found in Hin
      as [(game' & Hgame' & _ & Hentry)|(_ & c' & [= <-] & Hin & Hpatched)].
    + unfold foundEntry in Hentry.
      destruct (firstCandidate candidates game') as [first|] eqn:Hfirst';
        [|by destruct (decide _)].
      destruct (decide _) as [|Hcomplete%dec_stable]; [done|]. simplify_eq.
      apply firstCandidate_Some in Hfirst' as Hhash'. destruct Hhash' as [_ Hhash'].
      assert (hashCode game' = hashCode game) as Hsame by congruence.
      rewrite (firstCandidate_hashCode _ _ _ Hsame) in Hfirst'. simplify_eq.
      apply Hne. rewrite Hcomplete. by apply Hhash.
    + by destruct (Hunpatched c Hin Hpatched).
Qed.

End CsvGames.

(** ** The CSV export, as a whole *)

Section SortFacts.
Context {A : Type} (cmp : A → A → comparison).
Hypothesis cmp_trans : ∀ a b c, cmp a b ≠ Gt → cmp b c ≠ Gt → cmp a c ≠ Gt.
Hypothesis cmp_total : ∀ a b, cmp a b = Gt → cmp b a ≠ Gt.

Lemma sortInsert_sorted (x : A) (l : list A) :
  StronglySorted (λ a b, cmp a b ≠ Gt) l →
  StronglySorted (λ a b, cmp a b ≠ Gt) (sortInsert cmp x l).
Proof.
  induction l as [|y l IH]; intros Hsorted; simpl.
  - by repeat constructor.
  - apply StronglySorted_cons in Hsorted as Hcons. destruct Hcons as [Hy Hl].
    assert (cmp x y ≠ Gt → StronglySorted (λ a b, cmp a b ≠ Gt) (x :: y :: l))
      as Hfront.
    { intros Hxy. constructor; [done|]. constructor; [done|].
      eapply Forall_impl; [exact Hy|]. intros z Hyz. by eapply cmp_trans. }
    destruct (cmp x y) eqn:Hxy; [by apply Hfront..|].
    constructor; [by apply IH|].
    rewrite sortInsert_Permutation. constructor; [by apply cmp_total|done].
Qed.

Lemma sortWith_sorted (l : list A) :
  StronglySorted (λ a b, cmp a b ≠ Gt) (sortWith cmp l).
Proof.
  unfold sortWith. induction l as [|x l IH]; simpl; [constructor|].
  by apply sortInsert_sorted.
Qed.

End SortFacts.

Section CsvWhole.
Context `{HashCode Game}.
Context `{JsToString Game} `{JsToString WriteCandidate}.
Variable localeCompare : string → string → Z.
Implicit Types (this : DATStatus) (options : Options).

(** X16. The CSV export has one row per game of the all-partition under an
    allowed ROM type, a game filed under several ROM types or several times
    counting once; its header line is the fixed one of seventeen names. *)
Theorem toCsv_one_row_per_game this options :
  (toCsv localeCompare this options).1 = csvHeaders
  ∧ ∃ games,
      NoDup games
      ∧ (∀ game,
           game ∈ games
           ↔ ∃ type, type ∈ getAllowedTypes options
                     ∧ game ∈ getOrEmpty (allRomTypesToGames this) type)
      ∧ (toCsv localeCompare this options).2
        = toCsv_row this options
            (getValuesForAllowedTypes options
               (definedValues (incompleteRomTypesToCandidates this)))
            (getValuesForAllowedTypes options (foundRomTypesToCandidates this))
          <$> games.
Proof.
  split; [done|]. simpl. unfold toCsv_rows. eexists. split_and!; [| |done].
  - rewrite sortWith_Permutation. apply NoDup_reduceUnique.
  - intros game. rewrite sortWith_Permutation, elem_of_reduceUnique.
    rewrite elem_of_getValuesForAllowedTypes.
    setoid_rewrite getOrEmpty_definedValues.
    split; intros (type & Htype & Hgame); exists type; (split; [done|]).
    + apply list_elem_of_fmap in Hgame as (g & ? & ?). by simplify_eq.
    + by apply list_elem_of_fmap_2.
Qed.

(** X17. When [localeCompare] is a total preorder on the names, the rows of
    the CSV export are in ascending order of the game name: no row is
    followed, however far, by a row of a name that compares below its own. *)
Theorem toCsv_rows_sorted this options :
  (∀ a b c,
     (localeCompare a b ≤ 0)%Z → (localeCompare b c ≤ 0)%Z →
     (localeCompare a c ≤ 0)%Z) →
  (∀ a b, (0 < localeCompare a b)%Z → (localeCompare b a ≤ 0)%Z) →
  StronglySorted
    (λ row1 row2 : list string,
       ∀ name1 name2,
         row1 !! 1 = Some name1 → row2 !! 1 = Some name2 →
         (localeCompare name1 name2 ≤ 0)%Z)
    (toCsv_rows localeCompare this options).
Proof.
  intros Htrans Htotal. unfold toCsv_rows.
  eapply StronglySorted_fmap; [|apply sortWith_sorted].
  - intros game1 game2 Hle name1 name2 [= <-] [= <-].
    by apply Z.compare_le_iff in Hle.
  - intros a b c Hab Hbc. apply Z.compare_le_iff.
    apply Z.compare_le_iff in Hab, Hbc. by eapply Htrans.
  - intros a b Hab. apply Z.compare_le_iff.
    apply Z.compare_gt_iff in Hab. by apply Htotal.
Qed.

(** X18. The file column of a row of the CSV export is a list of paths
    joined by a bar, none of them twice; every path is the path of a
    rom-with-files of a candidate of the found or of the incomplete partition,
    filed under an allowed ROM type, that matches the game of the row: the
    path of the output file when writing, of the input file otherwise. *)
Theorem toCsv_row_file_paths this options (row : list string) :
  row ∈ toCsv_rows localeCompare this options →
  ∃ game filePaths,
    row !! 1 = Some (gameName game)
    ∧ row !! 3 = Some (join "|" filePaths)
    ∧ NoDup filePaths
    ∧ ∀ path,
        path ∈ filePaths →
        ∃ type candidate romWithFiles,
          type ∈ getAllowedTypes options
          ∧ (Some candidate ∈ getOrEmpty (foundRomTypesToCandidates this) type
             ∨ candidate ∈ getOrEmpty (incompleteRomTypesToCandidates this) type)
          ∧ equals (getGame candidate) game = true
          ∧ romWithFiles ∈ getRomsWithFiles candidate
          ∧ path = getFilePath (if shouldWrite options
                                then getOutputFile romWithFiles
                                else getInputFile romWithFiles).
Proof.
  unfold toCsv_rows. intros (game & -> & _)%list_elem_of_fmap.
  exists game. eexists. split; [done|]. split; [done|].
  split; [apply NoDup_reduceUnique|].
  intros path. rewrite elem_of_reduceUnique, list_elem_of_fmap.
  intros (file & -> & (rwf & -> & Hrwf)%list_elem_of_fmap).
  apply elem_of_app in Hrwf as [Hrwf|Hrwf].
  - destruct (find _ _) as [c|] eqn:Hfind in Hrwf;
      [|by apply elem_of_nil in Hrwf].
    apply find_some in Hfind as [Hin Heq]. apply list_elem_of_In in Hin.
    apply elem_of_getValuesForAllowedTypes in Hin as (type & Htype & Hin).
    rewrite getOrEmpty_definedValues in Hin.
    apply list_elem_of_fmap in Hin as (c' & ? & Hin). simplify_eq.
    exists type, c', rwf. split_and!; try done. by right.
  - destruct (find _ _) as [c|] eqn:Hfind in Hrwf;
      [|by apply elem_of_nil in Hrwf].
    apply find_some in Hfind as [Hin Heq]. apply list_elem_of_In in Hin.
    apply elem_of_getValuesForAllowedTypes in Hin as (type & Htype & Hin).
    exists type, c, rwf. split_and!; try done. by left.
Qed.

End CsvWhole.

(** ** The fixdat and the file system *)

Lemma filter_sublist_impl {A : Type} (P Q : A → Prop)
    `{!∀ x, Decision (P x)} `{!∀ x, Decision (Q x)} (l : list A) :
  (∀ x, P x → Q x) → filter P l `sublist_of` filter Q l.
Proof.
  intros Himpl. induction l as [|x l IH]; [done|].
  rewrite !filter_cons. destruct (decide (P x)) as [HP|HP].
  - rewrite decide_True by auto. by apply sublist_skip.
  - destruct (decide (Q x)); [by apply sublist_cons|done].
Qed.

Section FixdatEffects.
Context `{HashCode ROM}.
Variable fsError : FixdatCreator.FsCall → FixdatCreator.World → option FixdatCreator.FsError.
Variable toXmlDat : DAT → string.
Variable getFilename : DAT → string.
Variable path_join : string → string → string.

Import FixdatCreator.

(** X19. Whenever [create] returns [undefined], because fixdats are disabled
    or because every game is resolved, the directories and the files are as
    they were. *)
Theorem create_undefined_leaves_disk (options : Options) (originalDat : DAT)
    (candidates : list WriteCandidate) (world : World) :
  let result :=
    create fsError toXmlDat getFilename path_join options originalDat candidates world in
  result.1 = Resolved None →
  directories result.2 = directories world
  ∧ fileContents result.2 = fileContents world.
Proof.
  intros result. subst result. unfold create.
  destruct (shouldFixdat options); simpl; [|done].
  unfold mbind, Async_bind, await, progress, FsPoly_exists, FsPoly_mkdir,
    FsPoly_writeFile; simpl.
  destruct (bool_decide _); simpl; [done|].
  destruct (_ || _); simpl;
    repeat (match goal with
            | |- context [fsError ?call ?w] => destruct (fsError call w); simpl
            end); done.
Qed.


(** X21. Without candidates the games with a missing rom are the games of
    the catalog that declare a rom; a game that declares no rom is never
    among them, whatever the candidates. *)
Theorem gamesWithMissingRoms_no_candidates (originalDat : DAT) :
  gamesWithMissingRoms originalDat []
  = filter (λ game, getRoms game ≠ []) (getGames originalDat)
  ∧ ∀ candidates game,
      getRoms game = [] → game ∉ gamesWithMissingRoms originalDat candidates.
Proof.
  split.
  - unfold gamesWithMissingRoms. apply list_filter_iff. intros game.
    destruct (getRoms game) as [|rom roms].
    + split; [intros Hno; by destruct Hno|done].
    + split; [done|]. intros _ Hall. apply Forall_cons in Hall as [Hrom _].
      by apply not_elem_of_empty in Hrom.
  - intros candidates game Hroms [Hmissing _]%list_elem_of_filter.
    apply Hmissing. by rewrite Hroms.
Qed.

(** X22. Further candidates never add a game to the fixdat: when every
    candidate of one list is in another, the games with a missing rom for
    the larger list are among those for the smaller, in the same order. *)
Theorem gamesWithMissingRoms_antitone (originalDat : DAT)
    (candidates candidates' : list WriteCandidate) :
  candidates ⊆ candidates' →
  gamesWithMissingRoms originalDat candidates'
    `sublist_of` gamesWithMissingRoms originalDat candidates.
Proof.
  intros Hsubset. unfold gamesWithMissingRoms. apply filter_sublist_impl.
  intros game Hmissing Hall. apply Hmissing.
  eapply Forall_impl; [exact Hall|]. intros rom. simpl.
  rewrite !elem_of_writtenRomHashCodes.
  intros (candidate & rwf & Hin & Hrwf & Hhash). exists candidate, rwf.
  split_and!; [by apply Hsubset|done..].
Qed.

(** X23. A fixdat is its own fixdat: with the same candidates, the games
    with a missing rom of the fixdat are the games of the fixdat. *)
Theorem fixdat_of_fixdat (options : Options) (originalDat : DAT)
    (candidates : list WriteCandidate) :
  getGames (fixdatOf options (fixdatOf options originalDat candidates) candidates)
  = getGames (fixdatOf options originalDat candidates).
Proof.
  simpl. unfold gamesWithMissingRoms at 1. simpl.
  unfold gamesWithMissingRoms. rewrite list_filter_filter.
  apply list_filter_iff. intros game. tauto.
Qed.

End FixdatEffects.

(** ** Candidates after the first *)

Lemma omap_ext_elem_of {A B : Type} (f g : A → option B) (l : list A) :
  (∀ x, x ∈ l → f x = g x) → omap f l = omap g l.
Proof.
  induction l as [|x l IH]; intros Hfg; [done|].
  csimpl. rewrite (Hfg x) by left. rewrite IH; [done|].
  intros y Hy. apply Hfg. by right.
Qed.

Section LaterCandidates.
Context `{HashCode Game}.

(** X24. Only the first candidate of a game counts for its classification:
    two candidate lists that give every game of the catalog the same first
    candidate yield the same found and incomplete arrays under [games],
    [BIOSes], [devices] and [retail releases]. *)
Theorem constructor_first_candidate_only (dat : DAT)
    (candidates candidates' : list WriteCandidate) (type : ROMTypeValue) :
  (∀ game, game ∈ getGames dat →
     indexCandidates candidates !! hashCode game ≫= head
     = indexCandidates candidates' !! hashCode game ≫= head) →
  type ≠ PATCHED →
  getOrEmpty (foundRomTypesToCandidates (DATStatus_constructor dat candidates)) type
  = getOrEmpty (foundRomTypesToCandidates (DATStatus_constructor dat candidates')) type
  ∧ getOrEmpty
      (incompleteRomTypesToCandidates (DATStatus_constructor dat candidates)) type
    = getOrEmpty
        (incompleteRomTypesToCandidates (DATStatus_constructor dat candidates')) type.
Proof.
  intros Hfirst Hne.
  rewrite !constructor_found, !constructor_incomplete.
  destruct (decide (type = PATCHED)); [done|]. rewrite !app_nil_r.
  assert (∀ game, game ∈ filter (λ game, qualifies game type) (getGames dat) →
            firstCandidate candidates game = firstCandidate candidates' game)
    as Hsame.
  { intros game [_ Hgame]%list_elem_of_filter.
    rewrite <-!indexCandidates_head. by apply Hfirst. }
  split; apply omap_ext_elem_of; intros game Hgame.
  - unfold foundEntry. by rewrite (Hsame game Hgame).
  - unfold incompleteEntry. by rewrite (Hsame game Hgame).
Qed.

End LaterCandidates.

(** * The further properties at concrete inputs *)

Lemma String_compare_trans (a b c : string) :
  String.compare a b ≠ Gt → String.compare b c ≠ Gt → String.compare a c ≠ Gt.
Proof.
  intros Hab Hbc.
  assert (∀ x y, String.compare x y ≠ Gt → x = y ∨ OrderedTypeEx.String_as_OT.lt x y)
    as Hcases.
  { intros x y Hxy. destruct (String.compare x y) eqn:Hcmp; [|right|done].
    - left. by apply OrderedTypeEx.String_as_OT.cmp_eq.
    - by apply OrderedTypeEx.String_as_OT.cmp_lt. }
  destruct (Hcases a b Hab) as [->|Hlt1]; [done|].
  destruct (Hcases b c Hbc) as [->|Hlt2]; [done|].
  assert (String.compare a c = Lt) as ->; [|done].
  apply OrderedTypeEx.String_as_OT.cmp_lt.
  by eapply OrderedTypeEx.String_as_OT.lt_trans.
Qed.

Lemma String_compare_total (a b : string) :
  String.compare a b = Gt → String.compare b a ≠ Gt.
Proof.
  intros Hab. pose proof (OrderedTypeEx.String_as_OT.cmp_antisym b a) as Hanti.
  unfold OrderedTypeEx.String_as_OT.cmp in Hanti. rewrite Hab in Hanti.
  by rewrite Hanti.
Qed.

Lemma Examples_localeCompare_le (a b : string) :
  (Examples.localeCompare a b ≤ 0)%Z ↔ String.compare a b ≠ Gt.
Proof.
  unfold Examples.localeCompare. destruct (String.compare a b); split; try done; lia.
Qed.

Section ConcreteFurther.
Import Examples.
Local Existing Instance gameHashByName.
Local Existing Instance romHashByName.
Local Existing Instance objectToString.

Lemma constructor_counts_bounded_witness :
  let this :=
    DATStatus_constructor (mkDat "T" [gameOne; gameTwo]) [oneComplete; twoHalf] in
  (length (getOrEmpty (foundRomTypesToCandidates this) GAME)
   + length (getOrEmpty (incompleteRomTypesToCandidates this) GAME)
   ≤ length (getOrEmpty (allRomTypesToGames this) GAME))%nat.
Proof.
  assert (GAME ≠ PATCHED) as Hne by discriminate.
  exact (constructor_counts_bounded (mkDat "T" [gameOne; gameTwo])
           [oneComplete; twoHalf] GAME Hne).
Defined.

Lemma toConsole_nothing_to_report_witness :
  toConsole toLocaleString chalk_rgb
    (DATStatus_constructor (mkDat "T" []) [oneComplete]) plainOptions
  = " found".
Proof.
  assert (∀ candidate, candidate ∈ [oneComplete] → isPatched candidate = false)
    as Hunpatched by (by intros candidate ->%list_elem_of_singleton).
  exact (toConsole_nothing_to_report toLocaleString chalk_rgb (mkDat "T" [])
           [oneComplete] plainOptions eq_refl Hunpatched).
Defined.

Lemma toCsv_missing_game_witness :
  ∃ row,
    row ∈ toCsv_rows localeCompare
            (DATStatus_constructor (mkDat "T" [gameRetail]) [oneComplete])
            plainOptions
    ∧ row !! 1 = Some "Retail"
    ∧ row !! 2 = Some "MISSING"
    ∧ row !! 3 = Some EmptyString
    ∧ row !! 4 = Some "false".
Proof.
  assert (GAME ∈ getAllowedTypes plainOptions) as Hallowed
    by (apply (bool_decide_unpack _); vm_compute; exact I).
  assert (length (getRoms gameRetail) ≠ 0) as Hroms by (simpl; lia).
  assert (∀ candidate, candidate ∈ [oneComplete] →
            hashCode (getGame candidate) ≠ hashCode gameRetail) as Hnone
    by (by intros candidate ->%list_elem_of_singleton).
  exact (toCsv_missing_game localeCompare (mkDat "T" [gameRetail]) [oneComplete]
           plainOptions gameRetail GAME (list_elem_of_here _ _) Hallowed eq_refl
           Hroms Hnone).
Defined.

Lemma toCsv_found_game_witness :
  ∃ row,
    row ∈ toCsv_rows localeCompare
            (DATStatus_constructor (mkDat "T" [gameOne]) [oneComplete])
            plainOptions
    ∧ row !! 1 = Some "One"
    ∧ row !! 2 = Some "FOUND".
Proof.
  assert (GAME ∈ getAllowedTypes plainOptions) as Hallowed
    by (apply (bool_decide_unpack _); vm_compute; exact I).
  assert (∃ candidate,
            indexCandidates [oneComplete] !! hashCode gameOne ≫= head = Some candidate
            ∧ length (getRomsWithFiles candidate) = length (getRoms gameOne))
    as Hcomplete by (exists oneComplete; split; [by vm_compute|reflexivity]).
  exact (toCsv_found_game localeCompare (mkDat "T" [gameOne]) [oneComplete]
           plainOptions gameOne GAME (list_elem_of_here _ _) Hallowed eq_refl
           (or_intror (or_introl Hcomplete))).
Defined.

Lemma toCsv_incomplete_game_witness :
  ∃ row,
    row ∈ toCsv_rows localeCompare
            (DATStatus_constructor (mkDat "T" [gameOne; gameTwo])
               [oneComplete; twoHalf])
            plainOptions
    ∧ row !! 1 = Some "Two"
    ∧ row !! 2 = Some "INCOMPLETE".
Proof.
  assert (gameTwo ∈ getGames (mkDat "T" [gameOne; gameTwo])) as Hgame
    by (simpl; right; left).
  assert (GAME ∈ getAllowedTypes plainOptions) as Hallowed
    by (apply (bool_decide_unpack _); vm_compute; exact I).
  assert (length (getRoms gameTwo) ≠ 0) as Hroms by (simpl; lia).
  assert (indexCandidates [oneComplete; twoHalf] !! hashCode gameTwo ≫= head
          = Some twoHalf) as Hfirst by (by vm_compute).
  assert (length (getRomsWithFiles twoHalf) ≠ length (getRoms gameTwo)) as Hne
    by (simpl; lia).
  assert (∀ patched, patched ∈ [oneComplete; twoHalf] → isPatched patched = true →
            hashCode (getGame patched) ≠ hashCode gameTwo) as Hunpatched.
  { intros patched Hin. rewrite !elem_of_cons, elem_of_nil in Hin.
    by destruct Hin as [->|[->|[]]]. }
  assert (∀ game1 game2,
            game1 ∈ getGames (mkDat "T" [gameOne; gameTwo]) →
            game2 ∈ getGames (mkDat "T" [gameOne; gameTwo]) →
            hashCode game1 = hashCode game2 →
            length (getRoms game1) = length (getRoms game2)) as Hhash.
  { simpl. intros game1 game2 Hgame1 Hgame2.
    rewrite !elem_of_cons, elem_of_nil in Hgame1, Hgame2.
    destruct Hgame1 as [->|[->|[]]], Hgame2 as [->|[->|[]]]; vm_compute; congruence. }
  exact (toCsv_incomplete_game localeCompare (mkDat "T" [gameOne; gameTwo])
           [oneComplete; twoHalf] plainOptions gameTwo GAME twoHalf Hgame Hallowed
           eq_refl Hroms Hfirst Hne Hunpatched Hhash).
Defined.

Lemma toCsv_rows_sorted_witness :
  StronglySorted
    (λ row1 row2 : list string,
       ∀ name1 name2,
         row1 !! 1 = Some name1 → row2 !! 1 = Some name2 →
         (localeCompare name1 name2 ≤ 0)%Z)
    (toCsv_rows localeCompare
       (DATStatus_constructor (mkDat "T" [gameTwo; gameOne; gameEmpty])
          [oneComplete; twoHalf])
       plainOptions).
Proof.
  assert (∀ a b c,
            (localeCompare a b ≤ 0)%Z → (localeCompare b c ≤ 0)%Z →
            (localeCompare a c ≤ 0)%Z) as Htrans.
  { intros a b c. rewrite !Examples_localeCompare_le. apply String_compare_trans. }
  assert (∀ a b, (0 < localeCompare a b)%Z → (localeCompare b a ≤ 0)%Z) as Htotal.
  { intros a b Hab. apply Examples_localeCompare_le, String_compare_total.
    unfold localeCompare in Hab. destruct (String.compare a b); [lia..|done]. }
  exact (toCsv_rows_sorted localeCompare
           (DATStatus_constructor (mkDat "T" [gameTwo; gameOne; gameEmpty])
              [oneComplete; twoHalf])
           plainOptions Htrans Htotal).
Defined.

Lemma toCsv_row_file_paths_witness :
  let this :=
    DATStatus_constructor (mkDat "Test" [gameOne; gameTwo; gameEmpty])
      [oneComplete; twoHalf] in
  let row :=
    [ "Test"; "Two"; "INCOMPLETE"; "in/a.rom"; "false"; "false"; "false";
      "false"; "false"; "false"; "false"; "false"; "false"; "false";
      "false"; "false"; "false" ] in
  ∃ game filePaths,
    row !! 1 = Some (gameName game)
    ∧ row !! 3 = Some (join "|" filePaths)
    ∧ NoDup filePaths
    ∧ ∀ path,
        path ∈ filePaths →
        ∃ type candidate romWithFiles,
          type ∈ getAllowedTypes plainOptions
          ∧ (Some candidate ∈ getOrEmpty (foundRomTypesToCandidates this) type
             ∨ candidate ∈ getOrEmpty (incompleteRomTypesToCandidates this) type)
          ∧ equals (getGame candidate) game = true
          ∧ romWithFiles ∈ getRomsWithFiles candidate
          ∧ path = getFilePath (if shouldWrite plainOptions
                                then getOutputFile romWithFiles
                                else getInputFile romWithFiles).
Proof.
  intros this row.
  assert (row ∈ toCsv_rows localeCompare this plainOptions) as Hrow
    by (apply (bool_decide_unpack _); vm_compute; exact I).
  exact (toCsv_row_file_paths localeCompare this plainOptions row Hrow).
Defined.

Lemma create_undefined_leaves_disk_witness :
  let result :=
    FixdatCreator.create noFsError toXmlDat getFilename path_join plainOptions
      (mkDat "T" [gameOne]) [oneComplete] emptyWorld in
  FixdatCreator.directories result.2 = FixdatCreator.directories emptyWorld
  ∧ FixdatCreator.fileContents result.2 = FixdatCreator.fileContents emptyWorld.
Proof.
  assert ((FixdatCreator.create noFsError toXmlDat getFilename path_join plainOptions
             (mkDat "T" [gameOne]) [oneComplete] emptyWorld).1
          = FixdatCreator.Resolved None) as Hnone
    by (by vm_compute).
  exact (create_undefined_leaves_disk noFsError toXmlDat getFilename path_join
           plainOptions (mkDat "T" [gameOne]) [oneComplete] emptyWorld Hnone).
Defined.

Lemma gamesWithMissingRoms_antitone_witness :
  FixdatCreator.gamesWithMissingRoms (mkDat "T" [gameOne; gameTwo])
    [twoHalf; oneOverfull]
    `sublist_of`
  FixdatCreator.gamesWithMissingRoms (mkDat "T" [gameOne; gameTwo]) [twoHalf].
Proof.
  assert ([twoHalf] ⊆ [twoHalf; oneOverfull]) as Hsubset
    by (intros candidate ->%list_elem_of_singleton; left).
  exact (gamesWithMissingRoms_antitone (mkDat "T" [gameOne; gameTwo])
           [twoHalf] [twoHalf; oneOverfull] Hsubset).
Defined.

Lemma constructor_first_candidate_only_witness :
  getOrEmpty
    (foundRomTypesToCandidates
       (DATStatus_constructor (mkDat "T" [gameOne]) [oneComplete; oneEmpty])) GAME
  = getOrEmpty
      (foundRomTypesToCandidates
         (DATStatus_constructor (mkDat "T" [gameOne]) [oneComplete])) GAME
  ∧ getOrEmpty
      (incompleteRomTypesToCandidates
         (DATStatus_constructor (mkDat "T" [gameOne]) [oneComplete; oneEmpty])) GAME
    = getOrEmpty
        (incompleteRomTypesToCandidates
           (DATStatus_constructor (mkDat "T" [gameOne]) [oneComplete])) GAME.
Proof.
  assert (∀ game, game ∈ getGames (mkDat "T" [gameOne]) →
            indexCandidates [oneComplete; oneEmpty] !! hashCode game ≫= head
            = indexCandidates [oneComplete] !! hashCode game ≫= head) as Hfirst
    by (by intros game ->%list_elem_of_singleton; vm_compute).
  assert (GAME ≠ PATCHED) as Hne by discriminate.
  exact (constructor_first_candidate_only (mkDat "T" [gameOne])
           [oneComplete; oneEmpty] [oneComplete] GAME Hfirst Hne).
Defined.

End ConcreteFurther.
